(** * makehuman/lib/getpath.py: path helpers, modelled on POSIX

    The module is a layer of path-string transformations over [os.path].
    This development embeds it for the POSIX flavour of [os.path]
    ([posixpath], the one the Linux and Darwin branches of the module run
    with).  Python [str] values are lists of characters; the state of the
    file system (working directory, symlink resolution, which paths are
    files, directory listings) is a record the functions read from. *)

From Stdlib Require Import Ascii String List Bool Arith ZArith Lia.
Import ListNotations.

(** ** Python values *)

Abbreviation str := (list ascii) (only parsing).

Definition lit (s : string) : str := list_ascii_of_string s.

Definition str_dec : forall a b : str, {a = b} + {a <> b} :=
  list_eq_dec ascii_dec.

Definition str_eqb (a b : str) : bool :=
  if str_dec a b then true else false.

Inductive exn : Type :=
| ValueError
| TypeError.

(** The outcome of a call: a returned value or a raised exception. *)
Inductive res (A : Type) : Type :=
| Ok (a : A)
| Raise (e : exn).

Arguments Ok {A} a.
Arguments Raise {A} e.

Definition bind {A B : Type} (r : res A) (k : A -> res B) : res B :=
  match r with
  | Ok a => k a
  | Raise e => Raise e
  end.

Notation "x <- r ;; k" := (bind r (fun x => k))
  (at level 61, r at next level, right associativity).

(** ** [str] methods used by the module *)

Module PyStr.

Definition truthy (s : str) : bool :=
  match s with
  | [] => false
  | _ :: _ => true
  end.

Fixpoint startswith (prefix s : str) : bool :=
  match prefix, s with
  | [], _ => true
  | _ :: _, [] => false
  | a :: prefix', b :: s' => Ascii.eqb a b && startswith prefix' s'
  end.

Definition endswith_char (c : ascii) (s : str) : bool :=
  match rev s with
  | [] => false
  | d :: _ => Ascii.eqb d c
  end.

(** [s.replace(a, b)] for one-character [a] and [b]. *)
Definition replace (a b : ascii) (s : str) : str :=
  map (fun c => if Ascii.eqb c a then b else c) s.

(** [s.split(sep)] for a one-character separator: never the empty list. *)
Fixpoint split (sep : ascii) (s : str) : list str :=
  match s with
  | [] => [[]]
  | c :: s' =>
      if Ascii.eqb c sep then [] :: split sep s'
      else match split sep s' with
           | seg :: rest => (c :: seg) :: rest
           | [] => [[c]]
           end
  end.

(** [sep.join(parts)]. *)
Fixpoint join (sep : ascii) (parts : list str) : str :=
  match parts with
  | [] => []
  | [x] => x
  | x :: rest => x ++ sep :: join sep rest
  end.

(** [s.lower()] on the ASCII range. *)
Definition lower_char (c : ascii) : ascii :=
  let n := nat_of_ascii c in
  if (65 <=? n) && (n <=? 90) then ascii_of_nat (n + 32) else c.

Definition lower (s : str) : str := map lower_char s.

(** [s[n:]]. *)
Definition drop (n : nat) (s : str) : str := skipn n s.

End PyStr.

(** ** [posixpath] *)

Module PosixPath.

Import PyStr.

Definition sep : ascii := "/"%char.
Definition curdir : str := lit ".".
Definition pardir : str := lit "..".

Definition isabs (p : str) : bool := startswith [sep] p.

(** [os.path.join(a, b)]. *)
Definition join2 (a b : str) : str :=
  if startswith [sep] b then b
  else if negb (truthy a) || endswith_char sep a then a ++ b
  else a ++ sep :: b.

(** [os.path.join(a, *p)]. *)
Definition joinl (a : str) (p : list str) : str := fold_left join2 p a.

(** The number of leading slashes [normpath] keeps: none, one, or two when
    the path starts with exactly two. *)
Definition initial_slashes (path : str) : nat :=
  if startswith [sep] path then
    if startswith [sep; sep] path && negb (startswith [sep; sep; sep] path)
    then 2 else 1
  else 0.

Definition is_nil (l : list str) : bool :=
  match l with
  | [] => true
  | _ :: _ => false
  end.

(** One turn of the loop of [normpath] over the components. *)
Definition normpath_step (slashes : nat) (new_comps : list str) (comp : str)
  : list str :=
  if str_eqb comp [] || str_eqb comp curdir then new_comps
  else if negb (str_eqb comp pardir)
          || ((slashes =? 0) && is_nil new_comps)
          || (negb (is_nil new_comps) && str_eqb (last new_comps []) pardir)
  then new_comps ++ [comp]
  else removelast new_comps.

Definition normpath (path : str) : str :=
  if str_eqb path [] then curdir
  else
    let slashes := initial_slashes path in
    let comps := fold_left (normpath_step slashes) (split sep path) [] in
    let path := join sep comps in
    let path := repeat sep slashes ++ path in
    if truthy path then path else curdir.

(** [os.path.abspath(path)] with the working directory [cwd]. *)
Definition abspath (cwd path : str) : str :=
  if isabs path then normpath path else normpath (join2 cwd path).

(** [os.path.commonprefix] at two lists: their longest common prefix. *)
Fixpoint commonprefix2 (a b : list str) : list str :=
  match a, b with
  | x :: a', y :: b' => if str_eqb x y then x :: commonprefix2 a' b' else []
  | _, _ => []
  end.

(** [os.path.relpath(path, start)]. *)
Definition relpath (cwd path start : str) : res str :=
  if negb (truthy path) then Raise ValueError
  else
    let start_list := filter truthy (split sep (abspath cwd start)) in
    let path_list := filter truthy (split sep (abspath cwd path)) in
    let i := length (commonprefix2 start_list path_list) in
    let rel_list := repeat pardir (length start_list - i) ++ skipn i path_list in
    match rel_list with
    | [] => Ok curdir
    | a :: p => Ok (joinl a p)
    end.

(** [p.rfind(c)]: the index of the last [c] in [p], or [-1]. *)
Fixpoint rfind_from (c : ascii) (p : str) (i : Z) (found : Z) : Z :=
  match p with
  | [] => found
  | d :: p' => rfind_from c p' (i + 1)%Z (if Ascii.eqb d c then i else found)
  end.

Definition rfind (c : ascii) (p : str) : Z := rfind_from c p 0%Z (-1)%Z.

Definition extsep : ascii := "."%char.

(** [os.path.splitext(p)]: the extension runs from the last dot of the last
    component, unless only dots come before it in that component. *)
Definition splitext (p : str) : str * str :=
  let sepIndex := rfind sep p in
  let dotIndex := rfind extsep p in
  if (sepIndex <? dotIndex)%Z then
    let filenameIndex := Z.to_nat (sepIndex + 1) in
    let leading := firstn (Z.to_nat dotIndex - filenameIndex) (skipn filenameIndex p) in
    if existsb (fun c => negb (Ascii.eqb c extsep)) leading
    then (firstn (Z.to_nat dotIndex) p, skipn (Z.to_nat dotIndex) p)
    else (p, [])
  else (p, []).

End PosixPath.

(** ** The environment the module reads *)

Inductive platform : Type :=
| Linux
| Darwin.

(** What the operating system answers.  [realpath] is [os.path.realpath],
    [isfile] and [isdir] are [os.path.isfile] and [os.path.isdir], [listdir]
    is [os.listdir], [walk] lists the [(root, dirs, files)] triples of
    [os.walk]; [home_cache] is the module variable [__home_path]. *)
Record FileSystem : Type := {
  cwd : str;
  realpath : str -> str;
  isfile : str -> bool;
  isdir : str -> bool;
  listdir : str -> list str;
  walk : str -> list (str * list str * list str);
  sys_platform : platform;
  env_MH_HOME_LOCATION : str;
  home_cache : option str;
  xdg_documents : str;
  expanduser_home : str
}.

(** The environment after [__home_path] has been assigned [c]. *)
Definition with_home_cache (fs : FileSystem) (c : option str) : FileSystem := {|
  cwd := cwd fs;
  realpath := realpath fs;
  isfile := isfile fs;
  isdir := isdir fs;
  listdir := listdir fs;
  walk := walk fs;
  sys_platform := sys_platform fs;
  env_MH_HOME_LOCATION := env_MH_HOME_LOCATION fs;
  home_cache := c;
  xdg_documents := xdg_documents fs;
  expanduser_home := expanduser_home fs
|}.

(** What [os.path.realpath] grants of its results: a normalized path that
    starts with one slash. *)
Record WellFormed (fs : FileSystem) : Prop := {
  realpath_normal : forall p,
    PosixPath.normpath (realpath fs p) = realpath fs p;
  realpath_rooted : forall p,
    PosixPath.initial_slashes (realpath fs p) = 1
}.

(** A [str] or a [list] of [str], as the search-path arguments accept. *)
Inductive pathsArg : Type :=
| AStr (s : str)
| AList (l : list str).

(** What [getJailedPath] compares [relativeTo] with: the path arguments, and
    the type object [str] itself. *)
Inductive relArg : Type :=
| Paths (a : pathsArg)
| TheStrType.

Module GetPath.

Import PyStr PosixPath.

Section WithFileSystem.

Variable fs : FileSystem.

(** [isinstance(path, bytes)] is false for a [str], which is returned as it
    is. *)
Definition pathToUnicode (path : str) : str := path.

Definition backslash : ascii := "\"%char.

(** [formatPath] on a [str]. *)
Definition formatPathStr (path : str) : str :=
  pathToUnicode (replace backslash sep (normpath path)).

Definition formatPath (path : option str) : option str :=
  match path with
  | None => None
  | Some p => Some (formatPathStr p)
  end.

Definition canonicalPath (path : str) : str :=
  formatPathStr (realpath fs path).

(** [getHomePath]: the value returned and the new value of [__home_path]. *)
Definition getHomePath : str * option str :=
  let alt_home_path := env_MH_HOME_LOCATION fs in
  let home_path :=
    if isdir fs alt_home_path then Some (formatPathStr alt_home_path)
    else home_cache fs in
  match home_path with
  | Some h => (h, Some h)
  | None =>
      match sys_platform fs with
      | Linux =>
          let doc_folder := xdg_documents fs in
          let h := if isdir fs doc_folder then doc_folder
                   else pathToUnicode (expanduser_home fs) in
          (h, Some h)
      | Darwin => let h := expanduser_home fs in (h, Some h)
      end
  end.

Definition getPath (subPath : str) : str :=
  let path := fst getHomePath in
  let path :=
    match sys_platform fs with
    | Darwin => join2 (join2 path (lit "Documents")) (lit "MakeHuman")
    | Linux => join2 path (lit "makehuman")
    end in
  let path := join2 path (lit "v1py3") in
  let path := if truthy subPath then join2 path subPath else path in
  formatPathStr path.

Definition getDataPath (subPath : str) : str :=
  let path := if truthy subPath then getPath (join2 (lit "data") subPath)
              else getPath (lit "data") in
  formatPathStr path.

Definition getSysPath (subPath : str) : str :=
  let path := if truthy subPath then join2 (lit ".") subPath else lit "." in
  formatPathStr path.

Definition getSysDataPath (subPath : str) : str :=
  let path := if truthy subPath then getSysPath (join2 (lit "data") subPath)
              else getSysPath (lit "data") in
  formatPathStr path.

(** [localPath]: the path relative to the program directory. *)
Definition localPath (path : str) : res str :=
  let path := realpath fs path in
  let root := realpath fs (getSysPath []) in
  rpath <- relpath (cwd fs) path root ;;
  Ok (formatPathStr rpath).

(** The default of [relativeTo], [searchPaths] and [jailLimits]. *)
Definition default_paths : list str := [getDataPath []; getSysDataPath []].

(** [_allnamesequal(name)]. *)
Definition _allnamesequal (name : list str) : bool :=
  match name with
  | [] => true
  | n0 :: rest => forallb (fun n => str_eqb n n0) rest
  end.

(** [zip] over the unpacked [rows]: their columns, as many as the shortest
    row has. *)
Fixpoint zip_from (first : list str) (others : list (list str))
  : list (list str) :=
  match first with
  | [] => []
  | x :: first' =>
      if forallb (fun r => negb (is_nil r)) others
      then (x :: map (fun r => hd [] r) others)
             :: zip_from first' (map (fun r => tl r) others)
      else []
  end.

Definition zip_star (rows : list (list str)) : list (list str) :=
  match rows with
  | [] => []
  | first :: others => zip_from first others
  end.

Fixpoint takewhile {A : Type} (f : A -> bool) (l : list A) : list A :=
  match l with
  | [] => []
  | x :: l' => if f x then x :: takewhile f l' else []
  end.

Definition commonprefix (paths : list str) (sep : ascii) : str :=
  let bydirectorylevels := zip_star (map (split sep) paths) in
  join sep (map (fun x => hd [] x) (takewhile _allnamesequal bydirectorylevels)).

Definition isSubPath (subpath path : str) : bool :=
  let subpath := canonicalPath subpath in
  let path := canonicalPath path in
  str_eqb (commonprefix [subpath; path] sep) path.

Definition isSamePath (path1 path2 : str) : bool :=
  str_eqb (canonicalPath path1) (canonicalPath path2).

(** [isinstance(x, list)] fails for a [str], which is wrapped in a list. *)
Definition as_list (a : pathsArg) : list str :=
  match a with
  | AList l => l
  | AStr s => [s]
  end.

(** The loop of [getRelativePath]: every entry is tried, a later match
    overwrites an earlier one. *)
Definition find_relto (path : str) (relativeTo : list str) : option str :=
  fold_left (fun relto p => if isSubPath path p then Some p else relto)
            relativeTo None.

Definition getRelativePath (path : str) (relativeTo : pathsArg) (strict : bool)
  : res (option str) :=
  let relativeTo := as_list relativeTo in
  match find_relto path relativeTo with
  | None => if strict then Ok None else Ok (Some path)
  | Some relto =>
      let relto := abspath (cwd fs) (realpath fs relto) in
      let path := abspath (cwd fs) (realpath fs path) in
      rpath <- relpath (cwd fs) path relto ;;
      Ok (formatPath (Some rpath))
  end.

Fixpoint findFile_loop (relPath : str) (searchPaths : list str) : option str :=
  match searchPaths with
  | [] => None
  | dataPath :: rest =>
      let path := join2 dataPath relPath in
      if isfile fs path then formatPath (Some path)
      else findFile_loop relPath rest
  end.

Definition findFile (relPath : str) (searchPaths : pathsArg) (strict : bool)
  : option str :=
  let searchPaths := as_list searchPaths in
  match findFile_loop relPath searchPaths with
  | Some path => Some path
  | None => if strict then None else Some relPath
  end.

(** Truth value of a [str] or [None]. *)
Definition truthy_opt (o : option str) : bool :=
  match o with
  | None => false
  | Some s => truthy s
  end.

(** [thoroughFindFile]; each self-call is on a file name five characters
    shorter, [fuel] bounds their number. *)
Fixpoint thoroughFindFile_rec (fuel : nat) (filename : str)
  (searchPaths : pathsArg) (searchDefaultPaths : bool) : str :=
  let _ := replace backslash sep filename in
  let searchPaths := as_list searchPaths in
  let searchPaths :=
    if searchDefaultPaths
    then searchPaths ++ [getDataPath []; getSysDataPath []; getPath []; getSysPath []]
    else searchPaths in
  let path := findFile filename (AList searchPaths) true in
  match (if truthy_opt path then path else None) with
  | Some path => canonicalPath path
  | None =>
      if isfile fs filename then canonicalPath filename
      else
        let fallback := formatPathStr filename in
        if startswith (lit "data/") filename then
          match fuel with
          | 0 => fallback
          | S fuel' =>
              let result :=
                thoroughFindFile_rec fuel' (drop 5 filename) (AList searchPaths) false in
              if isfile fs result then result else fallback
          end
        else fallback
  end.

Definition thoroughFindFile (filename : str) (searchPaths : pathsArg)
  (searchDefaultPaths : bool) : str :=
  thoroughFindFile_rec (length filename) filename searchPaths searchDefaultPaths.

(** *** [search] *)

(** The dict [discovered]: keys in insertion order, a key assigned again
    keeps its place. *)
Definition dict : Type := list (str * str).

Fixpoint dict_get (d : dict) (k : str) : option str :=
  match d with
  | [] => None
  | (k', v) :: d' => if str_eqb k' k then Some v else dict_get d' k
  end.

Fixpoint dict_set (d : dict) (k v : str) : dict :=
  match d with
  | [] => [(k, v)]
  | (k', v') :: d' =>
      if str_eqb k' k then (k', v) :: d' else (k', v') :: dict_set d' k v
  end.

(** [l.index(x)]. *)
Fixpoint index (l : list str) (x : str) : res nat :=
  match l with
  | [] => Raise ValueError
  | y :: l' => if str_eqb y x then Ok 0 else i <- index l' x ;; Ok (S i)
  end.

(** [x in l]. *)
Definition contains (l : list str) (x : str) : bool :=
  existsb (fun y => str_eqb y x) l.

Definition normalize_extensions (extensions : list str) : list str :=
  map (fun e => if startswith [extsep] e then lower (drop 1 e) else lower e)
      extensions.

Definition _aggregate_files_mutexExt (extensions : list str) (discovered : dict)
  (filepath : str) : res dict :=
  let '(basep, ext) := splitext filepath in
  let ext := drop 1 ext in
  match dict_get discovered basep with
  | Some old =>
      i <- index extensions ext ;;
      j <- index extensions old ;;
      if i <? j then Ok (dict_set discovered basep ext) else Ok discovered
  | None => Ok (dict_set discovered basep ext)
  end.

(** A generator that has run to its end: the values it yielded and the
    exception that stopped it, if one did. *)
Definition generated : Type := list str * option exn.

(** The state of a running [search]: the dict and the values yielded. *)
Definition search_state : Type := dict * list str.

(** The body of both traversal loops at one file: [name] is what the
    extension is read from, [filepath] what is recorded or yielded. *)
Definition visit (extensions : list str) (mutexExtensions : bool)
  (st : search_state) (name filepath : str) : res search_state :=
  let '(discovered, out) := st in
  let ext := lower (drop 1 (snd (splitext name))) in
  if contains extensions ext then
    if mutexExtensions then
      discovered <- _aggregate_files_mutexExt extensions discovered filepath ;;
      Ok (discovered, out)
    else Ok (discovered, out ++ [pathToUnicode filepath])
  else Ok st.

(** The files the traversal meets, in order, each with the name its extension
    is read from. *)
Definition visited (paths : list str) (recursive : bool) : list (str * str) :=
  if recursive then
    flat_map (fun path =>
      flat_map (fun '(root, _, files) =>
        map (fun f => (f, join2 root f)) files) (walk fs path)) paths
  else
    flat_map (fun path =>
      if negb (isdir fs path) then []
      else
        flat_map (fun f =>
          let f := join2 path f in
          if isfile fs f then [(f, f)] else []) (listdir fs path)) paths.

Fixpoint visit_all (extensions : list str) (mutexExtensions : bool)
  (st : search_state) (todo : list (str * str)) : search_state * option exn :=
  match todo with
  | [] => (st, None)
  | (name, filepath) :: todo' =>
      match visit extensions mutexExtensions st name filepath with
      | Ok st' => visit_all extensions mutexExtensions st' todo'
      | Raise e => (st, Some e)
      end
  end.

Definition search (paths extensions : pathsArg) (recursive mutexExtensions : bool)
  : generated :=
  let paths := as_list paths in
  let extensions := as_list extensions in
  let extensions := normalize_extensions extensions in
  match visit_all extensions mutexExtensions ([], []) (visited paths recursive) with
  | (_, out, Some e) => (out, Some e)
  | (discovered, out, None) =>
      if mutexExtensions
      then (out ++ map (fun '(p, e) => pathToUnicode (p ++ extsep :: e)) discovered,
            None)
      else (out, None)
  end.

(** *** [getJailedPath] *)

Fixpoint _withinJail (jailLimits : list str) (path : str) : bool :=
  match jailLimits with
  | [] => false
  | j :: rest => if isSubPath path j then true else _withinJail rest path
  end.

(** [relativeTo is str]: identity with the type object. *)
Definition is_str (relativeTo : relArg) : bool :=
  match relativeTo with
  | TheStrType => true
  | Paths _ => false
  end.

(** [os.path.realpath] at an argument that may not be a path. *)
Definition realpath_arg (relativeTo : relArg) : res relArg :=
  match relativeTo with
  | Paths (AStr s) => Ok (Paths (AStr (realpath fs s)))
  | Paths (AList _) => Raise TypeError
  | TheStrType => Raise TypeError
  end.

(** [getRelativePath] at such an argument: the type object is wrapped in a
    list and reaches [os.path.realpath] through [isSubPath]. *)
Definition getRelativePath_arg (path : str) (relativeTo : relArg) (strict : bool)
  : res (option str) :=
  match relativeTo with
  | Paths a => getRelativePath path a strict
  | TheStrType => Raise TypeError
  end.

Definition getJailedPath (filepath : str) (relativeTo : relArg)
  (jailLimits : list str) : res (option str) :=
  let filepath := realpath fs filepath in
  relativeTo <- (if is_str relativeTo then realpath_arg relativeTo
                 else Ok relativeTo) ;;
  if _withinJail jailLimits filepath then
    relPath <- getRelativePath_arg filepath relativeTo true ;;
    if truthy_opt relPath then Ok relPath
    else getRelativePath filepath (AList jailLimits) false
  else Ok None.

End WithFileSystem.

End GetPath.

(** ** A file system without symlinks, for running the functions *)

Module PlainFS.

Import PyStr PosixPath.

(** A directory tree. *)
#[local] Set Warnings "-register-all".
Inductive node : Type :=
| File (name : str)
| Dir (name : str) (children : list node).

Definition node_name (n : node) : str :=
  match n with
  | File name => name
  | Dir name _ => name
  end.

Definition is_dir_node (n : node) : bool :=
  match n with
  | File _ => false
  | Dir _ _ => true
  end.

Definition child (children : list node) (name : str) : option node :=
  find (fun n => str_eqb (node_name n) name) children.

(** The node reached from [here] along the components [comps], [above]
    being the directories entered on the way, innermost first.  Every
    component, an empty one and [.] included, is looked up in a directory;
    [..] at the root stays there. *)
Fixpoint descend (here : node) (above : list node) (comps : list str)
  : option node :=
  match comps with
  | [] => Some here
  | c :: comps' =>
      match here with
      | File _ => None
      | Dir _ children =>
          if str_eqb c [] || str_eqb c curdir then descend here above comps'
          else if str_eqb c pardir then
            match above with
            | [] => descend here [] comps'
            | parent :: above' => descend parent above' comps'
            end
          else
            match child children c with
            | Some n => descend n (here :: above) comps'
            | None => None
            end
      end
  end.

(** The node a path names, from the root directory holding [root], which is
    also the working directory; the empty path names nothing. *)
Definition lookup (root : list node) (p : str) : option node :=
  if truthy p then descend (Dir [] root) [] (split sep p) else None.

(** [os.path.realpath] where nothing is a symlink and the working directory
    is [/]: the absolute normalized path, with a single leading slash. *)
Definition resolve (p : str) : str :=
  let a := abspath (lit "/") p in
  if startswith [sep; sep] a then drop 1 a else a.

(** [os.walk(top)] from the node at [top], top-down. *)
Fixpoint walk_node (top : str) (n : node) : list (str * list str * list str) :=
  match n with
  | File _ => []
  | Dir _ children =>
      (top,
       map node_name (filter is_dir_node children),
       map node_name (filter (fun c => negb (is_dir_node c)) children))
      :: (fix below (l : list node) : list (str * list str * list str) :=
            match l with
            | [] => []
            | c :: l' => walk_node (join2 top (node_name c)) c ++ below l'
            end) children
  end.

(** The file system whose root directory holds [root]: no symlinks, working
    directory [/]. *)
Definition make (root : list node) : FileSystem := {|
  cwd := lit "/";
  realpath := resolve;
  isfile := fun p =>
    match lookup root p with
    | Some (File _) => true
    | _ => false
    end;
  isdir := fun p =>
    match lookup root p with
    | Some (Dir _ _) => true
    | _ => false
    end;
  listdir := fun p =>
    match lookup root p with
    | Some (Dir _ children) => map node_name children
    | _ => []
    end;
  walk := fun p =>
    match lookup root p with
    | Some n => walk_node p n
    | None => []
    end;
  sys_platform := Linux;
  env_MH_HOME_LOCATION := [];
  home_cache := None;
  xdg_documents := [];
  expanduser_home := lit "/home/user"
|}.

End PlainFS.

(** ** File systems of the examples *)

Module Examples.

Import PlainFS.

(** [/r/a/b] is the only file. *)
Definition fs_rab : FileSystem :=
  make [Dir (lit "r") [Dir (lit "a") [File (lit "b")]]].

(** [/r/\x], a file whose name starts with a backslash. *)
Definition fs_backslash : FileSystem :=
  make [Dir (lit "r") [File (lit "\x")]].

(** A directory [/d] holding the one file [a.OBJ]. *)
Definition fs_upper : FileSystem :=
  make [Dir (lit "d") [File (lit "a.OBJ")]].

(** A directory [/d] holding [a.obj] and [a.OBJ], listed in that order. *)
Definition fs_both : FileSystem :=
  make [Dir (lit "d") [File (lit "a.obj"); File (lit "a.OBJ")]].

(** A directory [/d] holding [a.obj], [a.mhclo] and [b.obj]. *)
Definition fs_mutex : FileSystem :=
  make [Dir (lit "d")
          [File (lit "a.obj"); File (lit "a.mhclo"); File (lit "b.obj")]].

(** [fs_rab] with no directory named by [MH_HOME_LOCATION] and a home path
    already stored. *)
Definition fs_cached : FileSystem := {|
  cwd := cwd fs_rab;
  realpath := realpath fs_rab;
  isfile := isfile fs_rab;
  isdir := isdir fs_rab;
  listdir := listdir fs_rab;
  walk := walk fs_rab;
  sys_platform := Darwin;
  env_MH_HOME_LOCATION := lit "/nowhere";
  home_cache := Some (lit "/cached");
  xdg_documents := [];
  expanduser_home := lit "/Users/user"
|}.

(** [os.path.realpath] where nothing is a symlink, from the working
    directory [cwd]. *)
Definition resolve_in (cwd p : str) : str :=
  let a := PosixPath.abspath cwd p in
  if PyStr.startswith [PosixPath.sep; PosixPath.sep] a then PyStr.drop 1 a
  else a.

(** An empty file system seen from the working directory [/app]. *)
Definition fs_app : FileSystem := {|
  cwd := lit "/app";
  realpath := resolve_in (lit "/app");
  isfile := fun _ => false;
  isdir := fun _ => false;
  listdir := fun _ => [];
  walk := fun _ => [];
  sys_platform := Linux;
  env_MH_HOME_LOCATION := [];
  home_cache := None;
  xdg_documents := [];
  expanduser_home := lit "/home/user"
|}.

End Examples.

(** ** Specification-level definitions *)

Module Spec.

Import PyStr PosixPath.

(** The common prefix of two paths as the specification words it: split
    both at the separator, keep the longest leading run of equal segments,
    join it again. *)
Fixpoint common_segments (a b : list str) : list str :=
  match a, b with
  | x :: a', y :: b' =>
      if str_dec x y then x :: common_segments a' b' else []
  | _, _ => []
  end.

Definition segment_prefix (a b : str) : str :=
  join sep (common_segments (split sep a) (split sep b)).

End Spec.

(** ** Normal forms of [normpath] *)

Module NormalForm.

Import PyStr PosixPath.

(** A component that [normpath] keeps and that is not [..]. *)
Definition name_ok (c : str) : Prop :=
  c <> [] /\ c <> curdir /\ c <> pardir /\ ~ In sep c.

(** The component lists [normpath] ends with, for a path with [slashes]
    leading slashes: names, after a run of [..] that only a relative path
    can have. *)
Inductive NF (slashes : nat) : list str -> Prop :=
| NF_nil : NF slashes []
| NF_name (comps : list str) (c : str) :
    NF slashes comps -> name_ok c -> NF slashes (comps ++ [c])
| NF_up (comps : list str) :
    NF slashes comps -> slashes = 0 -> Forall (eq pardir) comps ->
    NF slashes (comps ++ [pardir]).

(** The string [normpath] builds from the leading slashes and the
    components. *)
Definition render (slashes : nat) (comps : list str) : str :=
  let path := repeat sep slashes ++ join sep comps in
  if truthy path then path else curdir.

(** A component with at least one character and no separator. *)
Definition clean (c : str) : Prop := c <> [] /\ ~ In sep c.

(** The components [relpath] joins. *)
Definition rel_list (cwd path start : str) : list str :=
  let start_list := filter truthy (split sep (abspath cwd start)) in
  let path_list := filter truthy (split sep (abspath cwd path)) in
  let i := length (commonprefix2 start_list path_list) in
  repeat pardir (length start_list - i) ++ skipn i path_list.

End NormalForm.

(** ** Vocabulary for [search] *)

Module ScanSpec.

Import PyStr PosixPath GetPath.

(** The test [ext in extensions] of the traversal loops, on the name the
    extension is read from. *)
Definition listed (extensions : list str) (name : str) : bool :=
  contains extensions (lower (drop 1 (snd (splitext name)))).

(** The key and the value [_aggregate_files_mutexExt] computes from a file
    path. *)
Definition base_of (filepath : str) : str := fst (splitext filepath).
Definition ext_of (filepath : str) : str := drop 1 (snd (splitext filepath)).

(** Where [x] first occurs in [l]. *)
Fixpoint position (l : list str) (x : str) : nat :=
  match l with
  | [] => 0
  | y :: l' => if str_eqb y x then 0 else S (position l' x)
  end.

(** The path yielded for an entry of the dict. *)
Definition rebuilt (entry : str * str) : str :=
  fst entry ++ extsep :: snd entry.

End ScanSpec.

(** * Properties *)

Import PyStr PosixPath GetPath.

(** ** Strings: [split] and [join] *)

Lemma str_eqb_refl (a : str) : str_eqb a a = true.
Proof. unfold str_eqb. destruct (str_dec a a); congruence. Qed.

Lemma str_eqb_eq (a b : str) : str_eqb a b = true <-> a = b.
Proof. unfold str_eqb. destruct (str_dec a b); split; congruence. Qed.

Lemma str_eqb_neq (a b : str) : str_eqb a b = false <-> a <> b.
Proof. unfold str_eqb. destruct (str_dec a b); split; congruence. Qed.

Lemma str_eqb_sym (a b : str) : str_eqb a b = str_eqb b a.
Proof.
  unfold str_eqb. destruct (str_dec a b), (str_dec b a); congruence.
Qed.

Lemma split_not_nil (c : ascii) (s : str) : split c s <> [].
Proof.
  destruct s as [|d s]; simpl; [discriminate|].
  destruct (Ascii.eqb d c); [discriminate|].
  destruct (split c s); discriminate.
Qed.

Lemma join_cons (c : ascii) (x y : str) (l : list str) :
  join c (x :: y :: l) = x ++ c :: join c (y :: l).
Proof. reflexivity. Qed.

Lemma join_split (c : ascii) (s : str) : join c (split c s) = s.
Proof.
  induction s as [|d s IH]; [reflexivity|].
  simpl. destruct (Ascii.eqb d c) eqn:E.
  - apply Ascii.eqb_eq in E. subst d.
    pose proof (split_not_nil c s) as N.
    destruct (split c s) as [|y l]; [congruence|].
    rewrite join_cons, IH. reflexivity.
  - destruct (split c s) as [|y l] eqn:S; [now apply split_not_nil in S|].
    destruct l as [|z l]; simpl in *; now rewrite <- IH.
Qed.

Lemma split_no_sep (c : ascii) (s : str) :
  Forall (fun seg => ~ In c seg) (split c s).
Proof.
  induction s as [|d s IH]; simpl.
  - constructor; [intros []|constructor].
  - destruct (Ascii.eqb d c) eqn:E.
    + constructor; [intros []|exact IH].
    + destruct (split c s) as [|y l] eqn:S; [now apply split_not_nil in S|].
      inversion IH; subst. constructor; [|assumption].
      intros [->|H]; [|contradiction].
      now rewrite Ascii.eqb_refl in E.
Qed.

Lemma split_free (c : ascii) (x : str) : ~ In c x -> split c x = [x].
Proof.
  induction x as [|d x IH]; intros H; [reflexivity|].
  simpl. destruct (Ascii.eqb d c) eqn:E.
  - apply Ascii.eqb_eq in E. subst. destruct H. now left.
  - rewrite IH; [reflexivity|]. intros I. apply H. now right.
Qed.

Lemma split_app_sep (c : ascii) (x s : str) :
  ~ In c x -> split c (x ++ c :: s) = x :: split c s.
Proof.
  induction x as [|d x IH]; intros H; simpl.
  - now rewrite Ascii.eqb_refl.
  - destruct (Ascii.eqb d c) eqn:E.
    + apply Ascii.eqb_eq in E. subst. destruct H. now left.
    + rewrite IH; [reflexivity|]. intros I. apply H. now right.
Qed.

Lemma split_join (c : ascii) (l : list str) :
  l <> [] -> Forall (fun seg => ~ In c seg) l -> split c (join c l) = l.
Proof.
  induction l as [|x l IH]; intros N F; [congruence|].
  inversion F; subst. destruct l as [|y l].
  - simpl. now apply split_free.
  - rewrite join_cons, split_app_sep by assumption.
    f_equal. apply IH; [discriminate|assumption].
Qed.

(** ** [commonprefix] at two paths *)

Lemma zip_two (a b : list str) :
  map (fun x => hd [] x) (takewhile _allnamesequal (zip_star [a; b]))
  = Spec.common_segments a b.
Proof.
  unfold zip_star. revert b.
  induction a as [|x a IH]; intros b; [reflexivity|].
  destruct b as [|y b]; [reflexivity|].
  simpl. rewrite andb_true_r, str_eqb_sym. unfold str_eqb at 1.
  destruct (str_dec x y); [|reflexivity].
  simpl. f_equal. apply IH.
Qed.

Lemma commonprefix_two (a b : str) (c : ascii) :
  commonprefix [a; b] c = join c (Spec.common_segments (split c a) (split c b)).
Proof. unfold commonprefix. simpl map at 2. now rewrite zip_two. Qed.

Lemma common_segments_diag (l : list str) : Spec.common_segments l l = l.
Proof.
  induction l as [|x l IH]; [reflexivity|].
  simpl. destruct (str_dec x x); congruence.
Qed.

Section Comparator.

Variable fs : FileSystem.

Lemma isSubPath_spec (sub base : str) :
  isSubPath fs sub base = true
  <-> Spec.segment_prefix (canonicalPath fs sub) (canonicalPath fs base)
      = canonicalPath fs base.
Proof.
  unfold isSubPath, Spec.segment_prefix.
  rewrite commonprefix_two. apply str_eqb_eq.
Qed.

Lemma isSubPath_refl (d : str) : isSubPath fs d d = true.
Proof.
  apply isSubPath_spec. unfold Spec.segment_prefix.
  now rewrite common_segments_diag, join_split.
Qed.

(** C6: [isSubPath sub base] holds exactly when the segment-wise common
    prefix of the canonical forms of [sub] and [base] is the canonical form
    of [base]; every path is a subpath of itself; and a path whose canonical
    form is [/home/user2] is not a subpath of one whose canonical form is
    [/home/user], the comparison being by whole segments. *)
Theorem isSubPath_segmentwise :
  (forall sub base,
      isSubPath fs sub base = true
      <-> Spec.segment_prefix (canonicalPath fs sub) (canonicalPath fs base)
          = canonicalPath fs base)
  /\ (forall d, isSubPath fs d d = true)
  /\ (forall sub base,
         canonicalPath fs sub = lit "/home/user2" ->
         canonicalPath fs base = lit "/home/user" ->
         isSubPath fs sub base = false).
Proof.
  split; [exact isSubPath_spec|]. split; [exact isSubPath_refl|].
  intros sub base Hs Hb. unfold isSubPath. rewrite Hs, Hb. reflexivity.
Qed.

End Comparator.

(** ** [normpath] and [abspath] never return the empty string *)

Lemma normpath_truthy (p : str) : truthy (normpath p) = true.
Proof.
  unfold normpath. destruct (str_eqb p []); [reflexivity|].
  cbv zeta.
  destruct (truthy (repeat sep (initial_slashes p) ++ _)) eqn:E;
    [exact E|reflexivity].
Qed.

Lemma abspath_truthy (cwd p : str) : truthy (abspath cwd p) = true.
Proof. unfold abspath. destruct (isabs p); apply normpath_truthy. Qed.

Lemma relpath_returns (cwd p start : str) :
  truthy p = true -> exists r, relpath cwd p start = Ok r.
Proof.
  intros T. unfold relpath. rewrite T. cbv zeta. simpl negb. cbv iota.
  destruct (repeat pardir _ ++ _); eauto.
Qed.

(** ** [getRelativePath]: the last match wins *)

Section Relativizer.

Variable fs : FileSystem.

Lemma relto_skip (path : str) (l : list str) (acc : option str) :
  (forall x, In x l -> isSubPath fs path x = false) ->
  fold_left (fun relto p => if isSubPath fs path p then Some p else relto) l acc
  = acc.
Proof.
  revert acc. induction l as [|x l IH]; intros acc H; [reflexivity|].
  simpl. rewrite (H x) by now left.
  apply IH. intros y I. apply H. now right.
Qed.

Lemma find_relto_last (path : str) (l1 l2 : list str) (e : str) :
  isSubPath fs path e = true ->
  (forall x, In x l2 -> isSubPath fs path x = false) ->
  find_relto fs path (l1 ++ e :: l2) = Some e.
Proof.
  intros He H2. unfold find_relto. rewrite fold_left_app. simpl.
  rewrite He. now apply (relto_skip path l2).
Qed.

Lemma find_relto_none (path : str) (l : list str) :
  (forall x, In x l -> isSubPath fs path x = false) ->
  find_relto fs path l = None.
Proof. intros H. now apply (relto_skip path l). Qed.

Lemma last_match_exists (path : str) (l : list str) :
  (exists e, In e l /\ isSubPath fs path e = true) ->
  exists l1 e l2,
    l = l1 ++ e :: l2 /\ isSubPath fs path e = true
    /\ forall x, In x l2 -> isSubPath fs path x = false.
Proof.
  induction l as [|y l IH] using rev_ind; intros [e [I He]]; [destruct I|].
  destruct (isSubPath fs path y) eqn:Hy.
  - exists l, y, []. repeat split; auto. intros x [].
  - apply in_app_or in I. destruct I as [I|[->|[]]]; [|congruence].
    destruct IH as [l1 [e' [l2 [-> [He' H2]]]]]; [now exists e|].
    exists l1, e', (l2 ++ [y]). rewrite <- app_assoc. repeat split; auto.
    intros x Ix. apply in_app_or in Ix. destruct Ix as [Ix|[->|[]]]; auto.
Qed.

(** C2: [getRelativePath] relativizes against the last entry of the list
    that contains the path (such a last entry exists as soon as one entry
    matches), and without a match returns [None] when strict and the path as
    it was given otherwise. *)
Theorem getRelativePath_last_match (path : str) (relativeTo : list str)
  (strict : bool) :
  ((exists e, In e relativeTo /\ isSubPath fs path e = true) ->
   exists l1 e l2 rpath,
     relativeTo = l1 ++ e :: l2
     /\ isSubPath fs path e = true
     /\ (forall x, In x l2 -> isSubPath fs path x = false)
     /\ relpath (cwd fs) (abspath (cwd fs) (realpath fs path))
                (abspath (cwd fs) (realpath fs e)) = Ok rpath
     /\ getRelativePath fs path (AList relativeTo) strict
        = Ok (Some (formatPathStr rpath)))
  /\ ((forall e, In e relativeTo -> isSubPath fs path e = false) ->
      getRelativePath fs path (AList relativeTo) strict
      = Ok (if strict then None else Some path)).
Proof.
  split.
  - intros Hex.
    destruct (last_match_exists path relativeTo Hex) as [l1 [e [l2 [E [He H2]]]]].
    destruct (relpath_returns (cwd fs) (abspath (cwd fs) (realpath fs path))
                (abspath (cwd fs) (realpath fs e))
                (abspath_truthy (cwd fs) (realpath fs path))) as [r Hr].
    exists l1, e, l2, r. repeat split; auto.
    unfold getRelativePath. simpl as_list.
    rewrite E, (find_relto_last path l1 l2 e He H2), Hr. reflexivity.
  - intros Hno. unfold getRelativePath. simpl as_list.
    rewrite (find_relto_none path relativeTo Hno). now destruct strict.
Qed.

End Relativizer.

(** ** [findFile]: the first existing join wins *)

Section Finder.

Variable fs : FileSystem.

Lemma findFile_loop_first (relPath : str) (l1 l2 : list str) (d : str) :
  isfile fs (join2 d relPath) = true ->
  (forall x, In x l1 -> isfile fs (join2 x relPath) = false) ->
  findFile_loop fs relPath (l1 ++ d :: l2) = Some (formatPathStr (join2 d relPath)).
Proof.
  intros Hd. induction l1 as [|x l1 IH]; intros H1; simpl.
  - now rewrite Hd.
  - rewrite (H1 x) by now left. apply IH. intros y I. apply H1. now right.
Qed.

Lemma findFile_loop_none (relPath : str) (l : list str) :
  (forall x, In x l -> isfile fs (join2 x relPath) = false) ->
  findFile_loop fs relPath l = None.
Proof.
  induction l as [|x l IH]; intros H; [reflexivity|].
  simpl. rewrite (H x) by now left. apply IH. intros y I. apply H. now right.
Qed.

(** C7: [findFile] joins the relative path onto the search paths in list
    order and returns the formatted join at the first one where it is an
    existing file; when no join is a file it returns [None] if strict and the
    relative path as given otherwise. *)
Theorem findFile_first_match (relPath : str) (searchPaths : list str)
  (strict : bool) :
  (forall l1 d l2,
      searchPaths = l1 ++ d :: l2 ->
      isfile fs (join2 d relPath) = true ->
      (forall x, In x l1 -> isfile fs (join2 x relPath) = false) ->
      findFile fs relPath (AList searchPaths) strict
      = Some (formatPathStr (join2 d relPath)))
  /\ ((forall x, In x searchPaths -> isfile fs (join2 x relPath) = false) ->
      findFile fs relPath (AList searchPaths) strict
      = if strict then None else Some relPath).
Proof.
  split.
  - intros l1 d l2 -> Hd H1. unfold findFile. simpl as_list.
    now rewrite (findFile_loop_first relPath l1 l2 d Hd H1).
  - intros H. unfold findFile. simpl as_list.
    now rewrite (findFile_loop_none relPath searchPaths H).
Qed.

End Finder.

(** ** [thoroughFindFile]: the fuel suffices *)

Section Locator.

Variable fs : FileSystem.

Lemma startswith_length (prefix s : str) :
  startswith prefix s = true -> length prefix <= length s.
Proof.
  revert s. induction prefix as [|a p IH]; intros [|b s] H; simpl in *;
    try lia; try discriminate.
  apply andb_true_iff in H. destruct H as [_ H]. apply IH in H. lia.
Qed.

Lemma thoroughFindFile_fuel (n m : nat) :
  forall filename searchPaths searchDefaultPaths,
    length filename <= n -> length filename <= m ->
    thoroughFindFile_rec fs n filename searchPaths searchDefaultPaths
    = thoroughFindFile_rec fs m filename searchPaths searchDefaultPaths.
Proof.
  revert m. induction n as [|n IH]; intros m filename sp sdp Hn Hm.
  - destruct filename; [|simpl in Hn; lia].
    destruct m; reflexivity.
  - destruct m as [|m].
    + destruct filename; [|simpl in Hm; lia]. reflexivity.
    + cbn [thoroughFindFile_rec].
      destruct (startswith (lit "data/") filename) eqn:Hs; [|reflexivity].
      apply startswith_length in Hs. simpl in Hs.
      rewrite (IH m); [reflexivity| |];
        unfold drop; rewrite length_skipn; lia.
Qed.

(** C10: a single string given where a list is expected is treated as the
    list holding just that string, by [getRelativePath], [findFile] and
    [thoroughFindFile] alike. *)
Theorem single_string_as_list (s : str) :
  (forall path strict,
      getRelativePath fs path (AStr s) strict
      = getRelativePath fs path (AList [s]) strict)
  /\ (forall relPath strict,
         findFile fs relPath (AStr s) strict
         = findFile fs relPath (AList [s]) strict)
  /\ (forall filename searchDefaultPaths,
         thoroughFindFile fs filename (AStr s) searchDefaultPaths
         = thoroughFindFile fs filename (AList [s]) searchDefaultPaths).
Proof.
  repeat split; intros.
  unfold thoroughFindFile. now destruct (length filename).
Qed.

End Locator.

(** ** [getJailedPath]: the guard on [relativeTo] *)

Section JailGuard.

Variable fs : FileSystem.

(** C4: the guard [relativeTo is str] is false at every plain string, so the
    string reaches [getRelativePath] as it was given, although
    [os.path.realpath] on the guarded branch would have resolved it. *)
Theorem relativeTo_string_not_resolved (s filepath : str)
  (jailLimits : list str) :
  is_str (Paths (AStr s)) = false
  /\ realpath_arg fs (Paths (AStr s)) = Ok (Paths (AStr (realpath fs s)))
  /\ getJailedPath fs filepath (Paths (AStr s)) jailLimits
     = if _withinJail fs jailLimits (realpath fs filepath) then
         relPath <- getRelativePath fs (realpath fs filepath) (AStr s) true ;;
         if truthy_opt relPath then Ok relPath
         else getRelativePath fs (realpath fs filepath) (AList jailLimits) false
       else Ok None.
Proof. repeat split. Qed.

End JailGuard.

(** ** [thoroughFindFile]: the replaced file name is dropped *)

(** C3: with [/r/a/b] the only file, [a/b] is found under [/r] and the
    backslash spelling of the same name is not: the name is searched as it
    was given, then returned formatted. *)
Theorem thoroughFindFile_backslash_not_normalized :
  thoroughFindFile Examples.fs_rab (lit "a/b") (AList [lit "/r"]) false
  = lit "/r/a/b"
  /\ thoroughFindFile Examples.fs_rab (lit "a\b") (AList [lit "/r"]) false
     = lit "a/b".
Proof. split; vm_compute; reflexivity. Qed.

(** ** [search]: extensions written in upper case *)

Lemma index_absent (l : list str) (x : str) :
  contains l x = false -> index l x = Raise ValueError.
Proof.
  induction l as [|y l IH]; intros H; [reflexivity|].
  simpl in *. apply orb_false_iff in H. destruct H as [Hy Hl].
  rewrite Hy, (IH Hl). reflexivity.
Qed.

Lemma contains_In (l : list str) (x : str) : contains l x = true -> In x l.
Proof.
  unfold contains. intros H. apply existsb_exists in H.
  destruct H as [y [I E]]. apply str_eqb_eq in E. now subst.
Qed.

Lemma lower_char_idem (c : ascii) : lower_char (lower_char c) = lower_char c.
Proof. destruct c as [[] [] [] [] [] [] [] []]; reflexivity. Qed.

Lemma lower_idem (s : str) : lower (lower s) = lower s.
Proof.
  unfold lower. rewrite map_map. apply map_ext. exact lower_char_idem.
Qed.

Lemma normalized_is_lower (extensions : list str) (e : str) :
  In e (normalize_extensions extensions) -> lower e = e.
Proof.
  unfold normalize_extensions. intros I. apply in_map_iff in I.
  destruct I as [x [E _]]. subst e.
  destruct (startswith [extsep] x); apply lower_idem.
Qed.

(** An extension that lower-casing changes is not in the normalized list. *)
Lemma not_lower_not_listed (extensions : list str) (ext : str) :
  lower ext <> ext -> contains (normalize_extensions extensions) ext = false.
Proof.
  intros N. destruct (contains _ ext) eqn:C; [|reflexivity].
  apply contains_In, normalized_is_lower in C. contradiction.
Qed.

Section Scanner.

Variable fs : FileSystem.

Lemma aggregate_known_raises (extensions : list str) (discovered : dict)
  (filepath : str) :
  dict_get discovered (fst (splitext filepath)) <> None ->
  contains extensions (drop 1 (snd (splitext filepath))) = false ->
  _aggregate_files_mutexExt extensions discovered filepath = Raise ValueError.
Proof.
  unfold _aggregate_files_mutexExt.
  destruct (splitext filepath) as [basep ext]. simpl fst. simpl snd.
  intros K C. destruct (dict_get discovered basep); [|congruence].
  now rewrite (index_absent _ _ C).
Qed.

Lemma aggregate_new_records (extensions : list str) (discovered : dict)
  (filepath : str) :
  dict_get discovered (fst (splitext filepath)) = None ->
  _aggregate_files_mutexExt extensions discovered filepath
  = Ok (dict_set discovered (fst (splitext filepath))
                 (drop 1 (snd (splitext filepath)))).
Proof.
  unfold _aggregate_files_mutexExt.
  destruct (splitext filepath) as [basep ext]. simpl fst. simpl snd.
  now intros ->.
Qed.

Lemma visit_all_app (extensions : list str) (mutexExtensions : bool)
  (pre rest : list (str * str)) (st st' : search_state) :
  visit_all extensions mutexExtensions st pre = (st', None) ->
  visit_all extensions mutexExtensions st (pre ++ rest)
  = visit_all extensions mutexExtensions st' rest.
Proof.
  revert st. induction pre as [|[name filepath] pre IH]; intros st H.
  - simpl in H. now inversion H.
  - simpl in *.
    destruct (visit extensions mutexExtensions st name filepath);
      [now apply IH|discriminate].
Qed.

Lemma visit_mutex_out (extensions : list str) (st st' : search_state)
  (name filepath : str) :
  visit extensions true st name filepath = Ok st' -> snd st' = snd st.
Proof.
  unfold visit. destruct st as [discovered out].
  destruct (contains extensions _); [|now intros [= <-]].
  destruct (_aggregate_files_mutexExt extensions discovered filepath);
    simpl; [now intros [= <-]|discriminate].
Qed.

Lemma visit_all_mutex_out (extensions : list str) (todo : list (str * str))
  (st st' : search_state) (e : option exn) :
  visit_all extensions true st todo = (st', e) -> snd st' = snd st.
Proof.
  revert st. induction todo as [|[name filepath] todo IH]; intros st H.
  - simpl in H. now inversion H.
  - simpl in H.
    destruct (visit extensions true st name filepath) as [st1|x] eqn:V.
    + apply IH in H. rewrite H. now apply visit_mutex_out in V.
    + now inversion H.
Qed.

(** C9, as the code has it: when a file whose extension is listed only in
    its lower-case form is met during a [mutexExtensions] search, the search
    stops with [ValueError], nothing yielded, if a file with the same path
    without extension was recorded before it; if none was, the aggregation
    step records the file under its extension as written and raises
    nothing. *)
Theorem mutex_uppercase_extension (paths extensions : list str)
  (recursive : bool) (pre post : list (str * str)) (name filepath : str)
  (st : search_state) :
  let exts := normalize_extensions extensions in
  let basep := fst (splitext filepath) in
  let ext := drop 1 (snd (splitext filepath)) in
  visited fs paths recursive = pre ++ (name, filepath) :: post ->
  visit_all exts true ([], []) pre = (st, None) ->
  contains exts (lower (drop 1 (snd (splitext name)))) = true ->
  contains exts ext = false ->
  (dict_get (fst st) basep <> None ->
   search fs (AList paths) (AList extensions) recursive true
   = ([], Some ValueError))
  /\ (dict_get (fst st) basep = None ->
      visit exts true st name filepath
      = Ok (dict_set (fst st) basep ext, snd st)).
Proof.
  intros exts basep ext Hv Hpre Hin Hout. split; intros Hk.
  - unfold search. simpl as_list. fold exts.
    rewrite Hv, (visit_all_app exts true pre _ _ st Hpre).
    pose proof (visit_all_mutex_out exts pre _ _ _ Hpre) as Ho.
    destruct st as [discovered out]. simpl in Ho. subst out.
    cbn [visit_all]. unfold visit. rewrite Hin.
    now rewrite (aggregate_known_raises exts discovered filepath Hk Hout).
  - destruct st as [discovered out]. unfold visit. rewrite Hin.
    now rewrite (aggregate_new_records exts discovered filepath Hk).
Qed.

End Scanner.

Lemma mutex_uppercase_extension_witness :
  search Examples.fs_both (AList [lit "/d"]) (AList [lit "obj"]) false true
  = ([], Some ValueError).
Proof.
  apply (mutex_uppercase_extension Examples.fs_both [lit "/d"] [lit "obj"]
           false [(lit "/d/a.obj", lit "/d/a.obj")] []
           (lit "/d/a.OBJ") (lit "/d/a.OBJ") ([(lit "/d/a", lit "obj")], []));
    vm_compute; congruence.
Defined.

(** C9 does not hold as stated: [a.OBJ] alone in its directory matches
    [obj] only after lower-casing, and the search yields it without raising,
    in both traversal modes. *)
Lemma mutex_uppercase_alone_is_yielded :
  contains (normalize_extensions [lit "obj"]) (lower (lit "OBJ")) = true
  /\ contains (normalize_extensions [lit "obj"]) (lit "OBJ") = false
  /\ search Examples.fs_upper (AList [lit "/d"]) (AList [lit "obj"]) false true
     = ([lit "/d/a.OBJ"], None)
  /\ search Examples.fs_upper (AList [lit "/d"]) (AList [lit "obj"]) true true
     = ([lit "/d/a.OBJ"], None).
Proof. repeat split; vm_compute; reflexivity. Qed.

(** ** [normpath] is idempotent *)

Import NormalForm.

Lemma is_nil_snoc (l : list str) (x : str) : is_nil (l ++ [x]) = false.
Proof. now destruct l. Qed.

Lemma step_skip_empty (slashes : nat) (acc : list str) :
  normpath_step slashes acc [] = acc.
Proof. reflexivity. Qed.

Lemma step_name (slashes : nat) (acc : list str) (c : str) :
  name_ok c -> normpath_step slashes acc c = acc ++ [c].
Proof.
  intros [N0 [N1 [N2 _]]]. unfold normpath_step, str_eqb.
  destruct (str_dec c []); [contradiction|].
  destruct (str_dec c curdir); [contradiction|].
  destruct (str_dec c pardir); [contradiction|]. reflexivity.
Qed.

Lemma step_up_kept (acc : list str) :
  Forall (eq pardir) acc -> normpath_step 0 acc pardir = acc ++ [pardir].
Proof.
  intros F. unfold normpath_step. simpl str_eqb at 1 2. cbv iota. simpl orb at 1.
  rewrite str_eqb_refl. simpl negb. simpl orb at 1.
  destruct acc as [|a acc] using rev_ind; [reflexivity|].
  rewrite is_nil_snoc, last_last. apply Forall_app in F.
  destruct F as [_ F]. inversion F; subst. now rewrite str_eqb_refl.
Qed.

Lemma step_preserves_NF (slashes : nat) (acc : list str) (c : str) :
  NF slashes acc -> ~ In sep c -> NF slashes (normpath_step slashes acc c).
Proof.
  intros H S. unfold normpath_step, str_eqb.
  destruct (str_dec c []) as [|N0]; [exact H|].
  destruct (str_dec c curdir) as [|N1]; [exact H|].
  destruct (str_dec c pardir) as [->|N2]; simpl.
  - destruct H as [|acc c H Hc|acc H Z F].
    + simpl. destruct (slashes =? 0) eqn:E; simpl; [|constructor].
      apply Nat.eqb_eq in E. apply (NF_up slashes [] (NF_nil slashes) E).
      constructor.
    + rewrite is_nil_snoc, last_last, andb_false_r. simpl.
      destruct (str_dec c pardir) as [->|_];
        [now destruct Hc as [_ [_ [Hc _]]]|].
      now rewrite removelast_last.
    + rewrite is_nil_snoc, last_last, andb_false_r. simpl.
      destruct (str_dec pardir pardir); [|congruence].
      apply NF_up; [now apply NF_up|assumption|].
      apply Forall_app. split; [assumption|now constructor].
  - apply NF_name; [assumption|]. repeat split; assumption.
Qed.

Lemma fold_preserves_NF (slashes : nat) (l acc : list str) :
  Forall (fun c => ~ In sep c) l -> NF slashes acc ->
  NF slashes (fold_left (normpath_step slashes) l acc).
Proof.
  revert acc. induction l as [|c l IH]; intros acc F H; [exact H|].
  inversion F; subst. simpl. apply IH; [assumption|].
  now apply step_preserves_NF.
Qed.

Lemma NF_fixed (slashes : nat) (comps : list str) :
  NF slashes comps -> fold_left (normpath_step slashes) comps [] = comps.
Proof.
  induction 1 as [|comps c H IH Hc|comps H IH Z F].
  - reflexivity.
  - rewrite fold_left_app, IH. simpl. now apply step_name.
  - rewrite fold_left_app, IH. simpl. subst slashes. now apply step_up_kept.
Qed.

Lemma NF_components (slashes : nat) (comps : list str) :
  NF slashes comps -> Forall (fun c => c <> [] /\ ~ In sep c) comps.
Proof.
  induction 1 as [|comps c H IH Hc|comps H IH Z F]; [constructor| |].
  - apply Forall_app. split; [assumption|].
    constructor; [|constructor]. now destruct Hc as [? [_ [_ ?]]].
  - apply Forall_app. split; [assumption|].
    constructor; [|constructor]. split; [discriminate|].
    vm_compute. intros [H0|[H0|[]]]; discriminate.
Qed.

Lemma NF_rooted_names (slashes : nat) (comps : list str) :
  NF slashes comps -> slashes <> 0 -> Forall name_ok comps.
Proof.
  induction 1 as [|comps c H IH Hc|comps H IH Z F]; intros N.
  - constructor.
  - apply Forall_app. split; [now apply IH|now constructor].
  - contradiction.
Qed.

Lemma split_leading_seps (n : nat) (s : str) :
  split sep (repeat sep n ++ s) = repeat [] n ++ split sep s.
Proof.
  induction n as [|n IH]; [reflexivity|].
  simpl. now rewrite IH.
Qed.

Lemma fold_skip_empties (slashes n : nat) (l acc : list str) :
  fold_left (normpath_step slashes) (repeat [] n ++ l) acc
  = fold_left (normpath_step slashes) l acc.
Proof. induction n as [|n IH]; [reflexivity|exact IH]. Qed.

Lemma join_head (h : ascii) (x : str) (l : list str) :
  exists t, join sep ((h :: x) :: l) = h :: t.
Proof. destruct l; simpl; eauto. Qed.

Lemma initial_slashes_le (p : str) : initial_slashes p <= 2.
Proof.
  unfold initial_slashes. destruct (startswith [sep] p); [|lia].
  destruct (_ && _); lia.
Qed.

Lemma initial_slashes_before (n : nat) (h : ascii) (t : str) :
  n <= 2 -> h <> sep -> initial_slashes (repeat sep n ++ h :: t) = n.
Proof.
  intros L N. assert (E : Ascii.eqb sep h = false).
  { apply Ascii.eqb_neq. congruence. }
  destruct n as [|[|[|n]]]; [| | |lia]; unfold initial_slashes;
    cbn [repeat app startswith]; rewrite ?Ascii.eqb_refl, ?E; reflexivity.
Qed.

Lemma normpath_repr (p : str) :
  normpath p
  = render (initial_slashes p)
           (fold_left (normpath_step (initial_slashes p)) (split sep p) []).
Proof.
  unfold normpath, str_eqb. destruct (str_dec p []) as [->|]; reflexivity.
Qed.

Lemma normpath_NF (p : str) :
  NF (initial_slashes p)
     (fold_left (normpath_step (initial_slashes p)) (split sep p) []).
Proof. apply fold_preserves_NF; [apply split_no_sep|constructor]. Qed.

Lemma normpath_render (slashes : nat) (comps : list str) :
  NF slashes comps -> slashes <= 2 ->
  normpath (render slashes comps) = render slashes comps.
Proof.
  intros H L. unfold render. cbv zeta.
  destruct (truthy (repeat sep slashes ++ join sep comps)) eqn:T;
    [|reflexivity].
  destruct comps as [|x comps].
  - destruct slashes as [|[|[|n]]]; [discriminate| | |lia]; reflexivity.
  - pose proof (NF_components slashes _ H) as F.
    assert (Fs : Forall (fun c => ~ In sep c) (x :: comps)).
    { eapply Forall_impl; [|exact F]. now intros c [_ ?]. }
    inversion F as [|? ? [X0 X1] _]; subst.
    destruct x as [|h x]; [congruence|].
    destruct (join_head h x comps) as [t J].
    assert (N : h <> sep). { intros ->. apply X1. now left. }
    rewrite normpath_repr, J, (initial_slashes_before slashes h t L N), <- J.
    rewrite split_leading_seps, fold_skip_empties.
    rewrite split_join by (assumption || discriminate).
    rewrite (NF_fixed slashes _ H). unfold render. now rewrite T.
Qed.

Theorem normpath_idem (p : str) : normpath (normpath p) = normpath p.
Proof.
  rewrite (normpath_repr p).
  apply normpath_render; [apply normpath_NF|apply initial_slashes_le].
Qed.

(** ** Characters of a normalized path *)

Section Characters.

Variable Q : ascii -> Prop.

Lemma split_chars (c : ascii) (p : str) :
  Forall Q p -> Forall (Forall Q) (split c p).
Proof.
  induction p as [|d p IH]; intros F; simpl.
  - repeat constructor.
  - inversion F; subst. specialize (IH H2).
    destruct (Ascii.eqb d c); [now repeat constructor|].
    destruct (split c p) as [|seg rest]; [repeat constructor; assumption|].
    inversion IH; subst. constructor; [now constructor|assumption].
Qed.

Lemma join_chars (c : ascii) (l : list str) :
  Q c -> Forall (Forall Q) l -> Forall Q (join c l).
Proof.
  intros Qc. induction l as [|x l IH]; intros F; [constructor|].
  inversion F; subst. destruct l as [|y l]; [assumption|].
  rewrite join_cons. apply Forall_app. split; [assumption|].
  constructor; [assumption|now apply IH].
Qed.

Lemma removelast_Forall {A : Type} (P : A -> Prop) (l : list A) :
  Forall P l -> Forall P (removelast l).
Proof.
  induction l as [|x l IH]; intros F; [constructor|].
  inversion F; subst. destruct l; [constructor|].
  simpl. constructor; [assumption|now apply IH].
Qed.

Lemma step_chars (slashes : nat) (acc : list str) (c : str) :
  Forall (Forall Q) acc -> Forall Q c ->
  Forall (Forall Q) (normpath_step slashes acc c).
Proof.
  intros Fa Fc. unfold normpath_step.
  destruct (_ || _); [assumption|].
  destruct (_ || _).
  - apply Forall_app. split; [assumption|now constructor].
  - now apply removelast_Forall.
Qed.

Lemma fold_chars (slashes : nat) (l acc : list str) :
  Forall (Forall Q) l -> Forall (Forall Q) acc ->
  Forall (Forall Q) (fold_left (normpath_step slashes) l acc).
Proof.
  revert acc. induction l as [|c l IH]; intros acc Fl Fa; [assumption|].
  inversion Fl; subst. simpl. apply IH; [assumption|].
  now apply step_chars.
Qed.

Lemma repeat_chars (c : ascii) (n : nat) : Q c -> Forall Q (repeat c n).
Proof. intros Qc. induction n; simpl; now constructor. Qed.

Lemma normpath_chars (p : str) :
  Q sep -> Q "."%char -> Forall Q p -> Forall Q (normpath p).
Proof.
  intros Qs Qd F. rewrite normpath_repr. unfold render. cbv zeta.
  destruct (truthy _).
  - apply Forall_app. split; [now apply repeat_chars|].
    apply join_chars; [assumption|].
    apply fold_chars; [now apply split_chars|constructor].
  - repeat constructor. assumption.
Qed.

End Characters.

Lemma replace_absent (a b : ascii) (s : str) :
  ~ In a s -> replace a b s = s.
Proof.
  induction s as [|c s IH]; intros N; [reflexivity|].
  simpl. destruct (Ascii.eqb c a) eqn:E.
  - apply Ascii.eqb_eq in E. subst. destruct N. now left.
  - rewrite IH; [reflexivity|]. intros I. apply N. now right.
Qed.

Lemma replace_removes (a b : ascii) (s : str) :
  a <> b -> ~ In a (replace a b s).
Proof.
  intros N. induction s as [|c s IH]; [intros []|].
  simpl. intros [H|H]; [|contradiction].
  destruct (Ascii.eqb c a) eqn:E; [congruence|].
  apply Ascii.eqb_neq in E. congruence.
Qed.

Lemma no_backslash_normpath (p : str) :
  ~ In backslash p -> ~ In backslash (normpath p).
Proof.
  intros N I.
  assert (F : Forall (fun c => c <> backslash) (normpath p)).
  { apply normpath_chars; try discriminate.
    apply Forall_forall. intros c Ic ->. contradiction. }
  rewrite Forall_forall in F. now apply (F backslash).
Qed.

Lemma formatPathStr_fixed (p : str) :
  ~ In backslash (normpath p) -> formatPathStr (formatPathStr p) = formatPathStr p.
Proof.
  intros N. unfold formatPathStr, pathToUnicode.
  rewrite (replace_absent backslash sep (normpath p) N).
  now rewrite normpath_idem, (replace_absent backslash sep (normpath p) N).
Qed.

Lemma formatPathStr_no_backslash (p : str) : ~ In backslash (formatPathStr p).
Proof. apply replace_removes. discriminate. Qed.

(** C8, as the code has it: [formatPath None] is [None]; a second
    [formatPath] changes nothing when the normalized path has no backslash,
    and so in particular on every path that [formatPath] has returned. *)
Theorem formatPath_idempotent_without_backslash :
  formatPath None = None
  /\ (forall p, ~ In backslash (normpath p) ->
        formatPath (formatPath (Some p)) = formatPath (Some p))
  /\ (forall p, formatPath (formatPath (formatPath (Some p)))
                = formatPath (formatPath (Some p))).
Proof.
  split; [reflexivity|]. split.
  - intros p N. simpl. now rewrite formatPathStr_fixed.
  - intros p. simpl. rewrite formatPathStr_fixed; [reflexivity|].
    apply no_backslash_normpath, formatPathStr_no_backslash.
Qed.

Lemma formatPath_idempotent_without_backslash_witness :
  formatPath (formatPath (Some (lit "/a/./b//c")))
  = formatPath (Some (lit "/a/./b//c")).
Proof.
  apply (proj1 (proj2 formatPath_idempotent_without_backslash)).
  vm_compute. intros H. repeat (destruct H as [H|H]; [discriminate|]).
  exact H.
Defined.

(** C8 does not hold as stated: on a POSIX path with backslashes the first
    [formatPath] produces separators that the second one normalizes. *)
Lemma formatPath_not_idempotent :
  formatPath (Some (lit "a\..\b")) = Some (lit "a/../b")
  /\ formatPath (formatPath (Some (lit "a\..\b"))) = Some (lit "b")
  /\ formatPath (formatPath (Some (lit "a\..\b")))
     <> formatPath (Some (lit "a\..\b")).
Proof. repeat split; try reflexivity. vm_compute. discriminate. Qed.

(** ** [os.path.join] over clean components, and [relpath] *)

#[local] Arguments Ascii.eqb : simpl never.

Lemma endswith_char_snoc (c d : ascii) (s : str) :
  endswith_char c (s ++ [d]) = Ascii.eqb d c.
Proof. unfold endswith_char. now rewrite rev_app_distr. Qed.

Lemma clean_not_abs (c : str) : clean c -> startswith [sep] c = false.
Proof.
  intros [N S]. destruct c as [|h c]; [congruence|].
  simpl. rewrite andb_true_r. apply Ascii.eqb_neq.
  intros <-. apply S. now left.
Qed.

Lemma clean_end (s c : str) : clean c -> endswith_char sep (s ++ c) = false.
Proof.
  intros [N S]. destruct (exists_last N) as [c' [d ->]].
  rewrite app_assoc, endswith_char_snoc. apply Ascii.eqb_neq.
  intros ->. apply S. apply in_or_app. right. now left.
Qed.

Lemma truthy_app_r (s c : str) : c <> [] -> truthy (s ++ c) = true.
Proof. intros N. destruct s; [now destruct c|reflexivity]. Qed.

Lemma join2_clean (a s c : str) :
  clean c -> a = s ++ c -> forall b, clean b -> join2 a b = a ++ sep :: b.
Proof.
  intros Hc -> b Hb. unfold join2.
  rewrite (clean_not_abs b Hb), (clean_end s c Hc).
  now rewrite (truthy_app_r s c (proj1 Hc)).
Qed.

Lemma joinl_clean (l : list str) :
  forall a s c, clean c -> a = s ++ c -> Forall clean l ->
  joinl a l = join sep (a :: l).
Proof.
  induction l as [|b l IH]; intros a s c Hc E F; [reflexivity|].
  inversion F as [|? ? Hb Fl]; subst. unfold joinl. simpl fold_left.
  rewrite (join2_clean (s ++ c) s c Hc eq_refl b Hb).
  fold (joinl ((s ++ c) ++ sep :: b) l).
  rewrite (IH ((s ++ c) ++ sep :: b) ((s ++ c) ++ [sep]) b Hb);
    [|now rewrite <- (app_assoc (s ++ c) [sep] b)|assumption].
  destruct l as [|y l]; [reflexivity|].
  rewrite !join_cons, <- app_assoc. reflexivity.
Qed.

Lemma joinl_join (a : str) (l : list str) :
  Forall clean (a :: l) -> joinl a l = join sep (a :: l).
Proof.
  intros F. inversion F; subst.
  now apply (joinl_clean l a [] a).
Qed.

Lemma pardir_clean : clean pardir.
Proof.
  split; [discriminate|]. vm_compute. intros [H|[H|[]]]; discriminate.
Qed.

Lemma truthy_segments_clean (p : str) :
  Forall clean (filter truthy (split sep p)).
Proof.
  apply Forall_forall. intros c I. apply filter_In in I.
  destruct I as [I T]. split; [now destruct c|].
  pose proof (split_no_sep sep p) as F. rewrite Forall_forall in F.
  now apply F.
Qed.

Lemma Forall_skipn_of {A : Type} (P : A -> Prop) (n : nat) (l : list A) :
  Forall P l -> Forall P (skipn n l).
Proof.
  revert l. induction n as [|n IH]; intros l F; [assumption|].
  destruct l; [constructor|]. inversion F; subst. now apply IH.
Qed.

Lemma rel_list_clean (cwd path start : str) :
  Forall clean (rel_list cwd path start).
Proof.
  unfold rel_list. apply Forall_app. split.
  - apply Forall_forall. intros c I. apply repeat_spec in I. subst.
    exact pardir_clean.
  - apply Forall_skipn_of, truthy_segments_clean.
Qed.

Lemma relpath_value (cwd path start : str) :
  truthy path = true ->
  relpath cwd path start
  = Ok (match rel_list cwd path start with
        | [] => curdir
        | _ :: _ => join sep (rel_list cwd path start)
        end).
Proof.
  intros T. unfold relpath. rewrite T. cbv zeta. simpl negb. cbv iota.
  fold (rel_list cwd path start).
  pose proof (rel_list_clean cwd path start) as F.
  destruct (rel_list cwd path start) as [|a l]; [reflexivity|].
  now rewrite (joinl_join a l F).
Qed.

(** ** Relative results *)

Lemma join_clean_head (l : list str) :
  l <> [] -> Forall clean l -> exists h t, join sep l = h :: t /\ h <> sep.
Proof.
  intros N F. destruct l as [|x l]; [congruence|].
  inversion F as [|? ? [X0 X1] _]; subst.
  destruct x as [|h x]; [congruence|].
  destruct (join_head h x l) as [t J]. exists h, t. split; [assumption|].
  intros ->. apply X1. now left.
Qed.

Lemma isabs_head (h : ascii) (t : str) : h <> sep -> isabs (h :: t) = false.
Proof.
  intros N. unfold isabs. cbn [startswith]. rewrite andb_true_r.
  apply Ascii.eqb_neq. congruence.
Qed.

Lemma relpath_relative (cwd path start r : str) :
  truthy path = true -> relpath cwd path start = Ok r -> isabs r = false.
Proof.
  intros T E. rewrite (relpath_value cwd path start T) in E.
  injection E as <-.
  pose proof (rel_list_clean cwd path start) as F.
  destruct (rel_list cwd path start) as [|a l] eqn:R; [reflexivity|].
  destruct (join_clean_head (a :: l)) as [h [t [J N]]];
    [discriminate|assumption|].
  rewrite J. now apply isabs_head.
Qed.

Lemma relpath_chars (Q : ascii -> Prop) (cwd path start r : str) :
  Q sep -> Q "."%char -> Forall Q (abspath cwd path) ->
  truthy path = true -> relpath cwd path start = Ok r -> Forall Q r.
Proof.
  intros Qs Qd F T E. rewrite (relpath_value cwd path start T) in E.
  injection E as <-.
  assert (A : Forall (Forall Q) (rel_list cwd path start)).
  { unfold rel_list. apply Forall_app. split.
    - apply Forall_forall. intros c I. apply repeat_spec in I. subst.
      repeat constructor; assumption.
    - apply Forall_skipn_of. apply Forall_forall. intros c I.
      apply filter_In in I. destruct I as [I _].
      pose proof (split_chars Q sep _ F) as S. rewrite Forall_forall in S.
      now apply S. }
  destruct (rel_list cwd path start) as [|a l] eqn:R.
  - repeat constructor. assumption.
  - now apply join_chars.
Qed.

Lemma initial_slashes_relative (p : str) :
  isabs p = false -> initial_slashes p = 0.
Proof. unfold isabs, initial_slashes. now intros ->. Qed.

Lemma initial_slashes_absolute (p : str) :
  isabs p = true -> 1 <= initial_slashes p.
Proof.
  unfold isabs, initial_slashes. intros ->. destruct (_ && _); lia.
Qed.

Lemma normpath_relative (p : str) : isabs p = false -> isabs (normpath p) = false.
Proof.
  intros R. pose proof (normpath_NF p) as H. rewrite (normpath_repr p).
  rewrite (initial_slashes_relative p R) in *.
  set (comps := fold_left (normpath_step 0) (split sep p) []) in *.
  unfold render. simpl repeat. simpl app.
  destruct (truthy (join sep comps)) eqn:T; [|reflexivity].
  destruct comps as [|x comps]; [discriminate|].
  destruct (join_clean_head (x :: comps)) as [h [t [J N]]]; [discriminate| |].
  - exact (NF_components 0 _ H).
  - rewrite J. now apply isabs_head.
Qed.

Lemma normpath_absolute (p : str) : isabs p = true -> isabs (normpath p) = true.
Proof.
  intros A. rewrite (normpath_repr p). unfold render.
  pose proof (initial_slashes_absolute p A) as L.
  destruct (initial_slashes p) as [|n]; [lia|]. reflexivity.
Qed.

Lemma abspath_absolute (cwd p : str) :
  isabs cwd = true -> isabs (abspath cwd p) = true.
Proof.
  intros C. unfold abspath. destruct (isabs p) eqn:A.
  - now apply normpath_absolute.
  - apply normpath_absolute. unfold join2. unfold isabs in A. rewrite A.
    destruct cwd as [|h cwd]; [discriminate|].
    destruct (_ || _); exact C.
Qed.

Lemma abspath_idem (cwd p : str) :
  isabs cwd = true -> abspath cwd (abspath cwd p) = abspath cwd p.
Proof.
  intros C. unfold abspath at 1. rewrite (abspath_absolute cwd p C).
  unfold abspath. destruct (isabs p); apply normpath_idem.
Qed.

Lemma formatPathStr_truthy (p : str) : truthy (formatPathStr p) = true.
Proof.
  unfold formatPathStr, pathToUnicode, replace.
  pose proof (normpath_truthy p) as T. now destruct (normpath p).
Qed.

Lemma formatPathStr_relative (r : str) :
  isabs r = false -> ~ In backslash r -> isabs (formatPathStr r) = false.
Proof.
  intros R N. unfold formatPathStr, pathToUnicode.
  rewrite replace_absent by now apply no_backslash_normpath.
  now apply normpath_relative.
Qed.

Lemma not_In_Forall (c : ascii) (s : str) :
  ~ In c s <-> Forall (fun d => d <> c) s.
Proof.
  rewrite Forall_forall. split.
  - intros N d I ->. contradiction.
  - intros F I. now apply (F c).
Qed.

(** ** [getJailedPath] *)

Section Jailer.

Variable fs : FileSystem.

Lemma withinJail_true (jailLimits : list str) (path : str) :
  _withinJail fs jailLimits path = true
  <-> exists j, In j jailLimits /\ isSubPath fs path j = true.
Proof.
  induction jailLimits as [|j rest IH]; simpl.
  - split; [discriminate|now intros [j [[] _]]].
  - destruct (isSubPath fs path j) eqn:E.
    + split; [|reflexivity]. intros _. exists j. split; [now left|assumption].
    + rewrite IH. split.
      * intros [k [I H]]. exists k. split; [now right|assumption].
      * intros [k [[->|I] H]]; [congruence|]. now exists k.
Qed.

Lemma find_relto_found (path : str) (l : list str) (base : str) :
  find_relto fs path l = Some base ->
  In base l /\ isSubPath fs path base = true.
Proof.
  intros H. destruct (find_relto fs path l) as [b|] eqn:E; [|discriminate].
  injection H as ->.
  assert (Hex : exists e, In e l /\ isSubPath fs path e = true).
  { induction l as [|y l IH] using rev_ind; [discriminate|].
    unfold find_relto in E. rewrite fold_left_app in E. simpl in E.
    destruct (isSubPath fs path y) eqn:Hy.
    - exists y. split; [apply in_or_app; right; now left|assumption].
    - destruct (IH E) as [e [I He]]. exists e.
      split; [apply in_or_app; now left|assumption]. }
  destruct (last_match_exists fs path l Hex) as [l1 [e [l2 [-> [He H2]]]]].
  rewrite (find_relto_last fs path l1 l2 e He H2) in E. injection E as <-.
  split; [apply in_or_app; right; now left|assumption].
Qed.

Lemma find_relto_missing (path : str) (l : list str) :
  find_relto fs path l = None ->
  forall e, In e l -> isSubPath fs path e = false.
Proof.
  intros E e I. destruct (isSubPath fs path e) eqn:He; [|reflexivity].
  destruct (last_match_exists fs path l) as [l1 [b [l2 [-> [Hb H2]]]]];
    [now exists e|].
  rewrite (find_relto_last fs path l1 l2 b Hb H2) in E. discriminate.
Qed.

(** What [getRelativePath] returns once a base is chosen. *)
Lemma getRelativePath_found (path : str) (a : pathsArg) (strict : bool)
  (base : str) :
  find_relto fs path (as_list a) = Some base ->
  exists rpath,
    relpath (cwd fs) (abspath (cwd fs) (realpath fs path))
            (abspath (cwd fs) (realpath fs base)) = Ok rpath
    /\ getRelativePath fs path a strict = Ok (Some (formatPathStr rpath)).
Proof.
  intros E.
  destruct (relpath_returns (cwd fs) (abspath (cwd fs) (realpath fs path))
              (abspath (cwd fs) (realpath fs base))
              (abspath_truthy (cwd fs) (realpath fs path))) as [r Hr].
  exists r. split; [assumption|].
  unfold getRelativePath. now rewrite E, Hr.
Qed.

(** X23: for a string or list [relativeTo], [getJailedPath] never raises;
    outside every jail root the result is [None]; inside one it is a string,
    the formatted path of the resolved file relative to an entry of
    [relativeTo] containing it when there is one and to an entry of
    [jailLimits] containing it otherwise; that string is a relative path when
    the working directory is absolute and the absolute path being relativized
    has no backslash. *)
Theorem getJailedPath_inside_outside (filepath : str) (relativeTo : pathsArg)
  (jailLimits : list str) :
  let resolved := realpath fs filepath in
  ((forall j, In j jailLimits -> isSubPath fs resolved j = false) ->
   getJailedPath fs filepath (Paths relativeTo) jailLimits = Ok None)
  /\ ((exists j, In j jailLimits /\ isSubPath fs resolved j = true) ->
      exists base rpath,
        isSubPath fs resolved base = true
        /\ relpath (cwd fs) (abspath (cwd fs) (realpath fs resolved))
                   (abspath (cwd fs) (realpath fs base)) = Ok rpath
        /\ getJailedPath fs filepath (Paths relativeTo) jailLimits
           = Ok (Some (formatPathStr rpath))
        /\ (getRelativePath fs resolved relativeTo true
            = Ok (Some (formatPathStr rpath))
            /\ In base (as_list relativeTo)
            \/ getRelativePath fs resolved relativeTo true = Ok None
               /\ In base jailLimits)
        /\ (isabs (cwd fs) = true ->
            ~ In backslash (abspath (cwd fs) (realpath fs resolved)) ->
            isabs (formatPathStr rpath) = false)).
Proof.
  intros resolved. unfold getJailedPath. fold resolved.
  cbn [is_str bind getRelativePath_arg]. split.
  - intros Hout.
    destruct (_withinJail fs jailLimits resolved) eqn:W; [|reflexivity].
    apply withinJail_true in W. destruct W as [j [I H]].
    rewrite (Hout j I) in H. discriminate.
  - intros Hin. apply withinJail_true in Hin as W. rewrite W.
    assert (Rel : forall base rpath,
      relpath (cwd fs) (abspath (cwd fs) (realpath fs resolved))
              (abspath (cwd fs) (realpath fs base)) = Ok rpath ->
      isabs (cwd fs) = true ->
      ~ In backslash (abspath (cwd fs) (realpath fs resolved)) ->
      isabs (formatPathStr rpath) = false).
    { intros base rpath Hr C N.
      pose proof (abspath_truthy (cwd fs) (realpath fs resolved)) as T.
      apply formatPathStr_relative.
      - exact (relpath_relative _ _ _ _ T Hr).
      - apply not_In_Forall.
        apply not_In_Forall in N. rewrite <- (abspath_idem _ _ C) in N.
        refine (relpath_chars (fun d => d <> backslash) _ _ _ _ _ _ N T Hr);
          discriminate. }
    destruct (find_relto fs resolved (as_list relativeTo)) as [base|] eqn:E.
    + destruct (getRelativePath_found resolved relativeTo true base E)
        as [rpath [Hr Hg]].
      destruct (find_relto_found resolved _ base E) as [I Hb].
      exists base, rpath. rewrite Hg. cbn [bind truthy_opt].
      rewrite formatPathStr_truthy.
      repeat split; auto. now apply (Rel base).
    + assert (Hn : getRelativePath fs resolved relativeTo true = Ok None).
      { unfold getRelativePath. now rewrite E. }
      destruct Hin as [j [Ij Hj]].
      destruct (last_match_exists fs resolved jailLimits)
        as [l1 [base [l2 [Ej [Hb H2]]]]]; [now exists j|].
      assert (Ef : find_relto fs resolved (as_list (AList jailLimits)) = Some base).
      { simpl as_list. rewrite Ej. now apply find_relto_last. }
      destruct (getRelativePath_found resolved (AList jailLimits) false base Ef)
        as [rpath [Hr Hg]].
      exists base, rpath. rewrite Hn. cbn [bind truthy_opt].
      repeat split; auto.
      * right. split; [reflexivity|]. rewrite Ej. apply in_or_app. right. now left.
      * now apply (Rel base).
Qed.

End Jailer.

Lemma getJailedPath_inside_outside_witness :
  getJailedPath Examples.fs_rab (lit "/x/y") (Paths (AStr (lit "/r"))) [lit "/r"]
  = Ok None
  /\ exists s,
       getJailedPath Examples.fs_rab (lit "/r/a/b") (Paths (AStr (lit "/r/a")))
         [lit "/r"] = Ok (Some s)
       /\ isabs s = false.
Proof.
  split.
  - apply (proj1 (getJailedPath_inside_outside Examples.fs_rab (lit "/x/y")
                    (AStr (lit "/r")) [lit "/r"])).
    intros j [<-|[]]. reflexivity.
  - destruct (proj2 (getJailedPath_inside_outside Examples.fs_rab (lit "/r/a/b")
                       (AStr (lit "/r/a")) [lit "/r"]))
      as [base [rpath [_ [_ [G [_ R]]]]]].
    + exists (lit "/r"). split; [now left|reflexivity].
    + exists (formatPathStr rpath). split; [exact G|].
      apply R; [reflexivity|]. vm_compute.
      intros H. repeat (destruct H as [H|H]; [discriminate|]). exact H.
Defined.

(** C1: the file [/r/\x], whose name starts with a backslash, is inside the
    jail root [/r], and [getJailedPath] relative to [/r] returns for it the
    absolute path [/x], where a path relative to [relativeTo] and confined
    to the jail is due. *)
Lemma getJailedPath_absolute_result :
  isSubPath Examples.fs_backslash
    (realpath Examples.fs_backslash (lit "/r/\x")) (lit "/r") = true
  /\ getJailedPath Examples.fs_backslash (lit "/r/\x")
       (Paths (AStr (lit "/r"))) [lit "/r"] = Ok (Some (lit "/x"))
  /\ isabs (lit "/x") = true.
Proof. repeat split; vm_compute; reflexivity. Qed.

(** ** The theorems at concrete inputs *)

Lemma isSubPath_segmentwise_witness :
  isSubPath Examples.fs_rab (lit "/home/user2") (lit "/home/user") = false.
Proof.
  apply (proj2 (proj2 (isSubPath_segmentwise Examples.fs_rab)));
    vm_compute; reflexivity.
Defined.

Lemma getRelativePath_last_match_witness :
  (exists s,
      getRelativePath Examples.fs_rab (lit "/r/a/b")
        (AList [lit "/r"; lit "/r/a"; lit "/x"]) true = Ok (Some s))
  /\ getRelativePath Examples.fs_rab (lit "/r/a/b")
       (AList [lit "/x"; lit "/y"]) true = Ok None.
Proof.
  split.
  - destruct (proj1 (getRelativePath_last_match Examples.fs_rab (lit "/r/a/b")
                       [lit "/r"; lit "/r/a"; lit "/x"] true))
      as [l1 [e [l2 [rpath [_ [_ [_ [_ G]]]]]]]].
    + exists (lit "/r"). split; [now left|reflexivity].
    + now exists (formatPathStr rpath).
  - apply (proj2 (getRelativePath_last_match Examples.fs_rab (lit "/r/a/b")
                    [lit "/x"; lit "/y"] true)).
    intros e [<-|[<-|[]]]; reflexivity.
Defined.

Lemma findFile_first_match_witness :
  findFile Examples.fs_rab (lit "a/b") (AList [lit "/x"; lit "/r"; lit "/"]) false
  = Some (formatPathStr (join2 (lit "/r") (lit "a/b")))
  /\ findFile Examples.fs_rab (lit "a/c") (AList [lit "/x"; lit "/r"]) true
     = None.
Proof.
  split.
  - apply (proj1 (findFile_first_match Examples.fs_rab (lit "a/b")
                    [lit "/x"; lit "/r"; lit "/"] false) [lit "/x"] (lit "/r")
             [lit "/"]); try reflexivity.
    intros x [<-|[]]. reflexivity.
  - apply (proj2 (findFile_first_match Examples.fs_rab (lit "a/c")
                    [lit "/x"; lit "/r"] true)).
    intros x [<-|[<-|[]]]; reflexivity.
Defined.

(** ** Round trip through [getRelativePath] and [findFile] *)

Lemma name_ok_clean (c : str) : name_ok c -> clean c.
Proof. intros [N [_ [_ S]]]. now split. Qed.

Lemma names_clean (l : list str) : Forall name_ok l -> Forall clean l.
Proof. intros F. eapply Forall_impl; [|exact F]. exact name_ok_clean. Qed.

Lemma names_NF (slashes : nat) (l : list str) :
  Forall name_ok l -> NF slashes l.
Proof.
  induction l as [|c l IH] using rev_ind; intros F; [constructor|].
  apply Forall_app in F. destruct F as [Fl Fc]. inversion Fc; subst.
  apply NF_name; [now apply IH|assumption].
Qed.

Lemma join_app (c : ascii) (l1 l2 : list str) :
  l1 <> [] -> l2 <> [] ->
  join c (l1 ++ l2) = join c l1 ++ c :: join c l2.
Proof.
  intros N1 N2. induction l1 as [|x l1 IH]; [congruence|].
  destruct l1 as [|y l1].
  - destruct l2; [congruence|reflexivity].
  - change ((x :: y :: l1) ++ l2) with (x :: (y :: l1) ++ l2).
    change ((y :: l1) ++ l2) with (y :: l1 ++ l2) at 1.
    rewrite !join_cons.
    change (y :: l1 ++ l2) with ((y :: l1) ++ l2).
    rewrite IH by discriminate. now rewrite <- app_assoc.
Qed.

Lemma join_snoc (c : ascii) (l : list str) (x : str) :
  exists s, join c (l ++ [x]) = s ++ x.
Proof.
  destruct l as [|y l].
  - now exists [].
  - rewrite join_app by discriminate. exists (join c (y :: l) ++ [c]).
    now rewrite <- app_assoc.
Qed.

Lemma join2_plain (a x : str) :
  startswith [sep] x = false -> truthy a = true ->
  endswith_char sep a = false -> join2 a x = a ++ sep :: x.
Proof. intros S T E. unfold join2. now rewrite S, T, E. Qed.

Lemma filter_truthy_clean (l : list str) :
  Forall clean l -> filter truthy l = l.
Proof.
  induction 1 as [|x l [N _] _ IH]; [reflexivity|].
  simpl. destruct x; [congruence|]. simpl. now rewrite IH.
Qed.

Lemma commonprefix2_app (l r : list str) : commonprefix2 l (l ++ r) = l.
Proof.
  induction l as [|x l IH]; [now destruct r|].
  simpl. now rewrite str_eqb_refl, IH.
Qed.

Lemma common_segments_prefixes (a b : list str) :
  exists r1 r2,
    a = Spec.common_segments a b ++ r1 /\ b = Spec.common_segments a b ++ r2.
Proof.
  revert b. induction a as [|x a IH]; intros b.
  - exists [], b. now split.
  - destruct b as [|y b]; [now exists (x :: a), []|].
    simpl. destruct (str_dec x y) as [->|].
    + destruct (IH b) as [r1 [r2 [E1 E2]]]. exists r1, r2.
      simpl. now rewrite <- E1, <- E2.
    + now exists (x :: a), (y :: b).
Qed.

Lemma split_rooted (comps : list str) :
  split sep (sep :: join sep comps) = [] :: split sep (join sep comps).
Proof. cbn [split]. now rewrite Ascii.eqb_refl. Qed.

Lemma render_rooted (comps : list str) : render 1 comps = sep :: join sep comps.
Proof. reflexivity. Qed.

Lemma render_names (comps : list str) :
  comps <> [] -> Forall clean comps -> render 0 comps = join sep comps.
Proof.
  intros N F. unfold render. simpl repeat. simpl app.
  destruct (join_clean_head comps N F) as [h [t [J _]]]. now rewrite J.
Qed.

Section RoundTrip.

Variable fs : FileSystem.
Hypothesis W : WellFormed fs.

Lemma realpath_shape (p : str) :
  exists comps,
    Forall name_ok comps /\ realpath fs p = sep :: join sep comps.
Proof.
  pose proof (normpath_repr (realpath fs p)) as R.
  pose proof (normpath_NF (realpath fs p)) as H.
  rewrite (realpath_normal fs W), (realpath_rooted fs W) in *.
  eexists. split; [|rewrite R at 1; apply render_rooted].
  apply (NF_rooted_names 1); [assumption|discriminate].
Qed.

Lemma realpath_abspath (p : str) :
  abspath (cwd fs) (realpath fs p) = realpath fs p.
Proof.
  unfold abspath. destruct (realpath_shape p) as [comps [_ E]].
  rewrite E at 1. cbn [isabs startswith]. rewrite Ascii.eqb_refl.
  simpl andb. cbv iota. apply (realpath_normal fs W).
Qed.

Lemma realpath_format (p : str) :
  ~ In backslash (realpath fs p) -> canonicalPath fs p = realpath fs p.
Proof.
  intros N. unfold canonicalPath, formatPathStr, pathToUnicode.
  rewrite (realpath_normal fs W). now apply replace_absent.
Qed.

Lemma names_sep_free (l : list str) :
  Forall name_ok l -> Forall (fun seg => ~ In sep seg) l.
Proof.
  intros F. eapply Forall_impl; [|exact F]. now intros c [_ [_ [_ ?]]].
Qed.

(** A resolved path under a resolved base other than itself continues the
    components of the base. *)
Lemma subpath_components (f b : str) :
  realpath fs b = b ->
  ~ In backslash b ->
  ~ In backslash (realpath fs f) ->
  isSubPath fs f b = true ->
  realpath fs f <> b ->
  exists compsB rest,
    Forall name_ok compsB /\ Forall name_ok rest
    /\ compsB <> [] /\ rest <> []
    /\ b = sep :: join sep compsB
    /\ realpath fs f = sep :: join sep (compsB ++ rest).
Proof.
  intros Hb Nb Nf Hsub Hne.
  destruct (realpath_shape f) as [cF [HF EF]].
  destruct (realpath_shape b) as [cB [HB EB]]. rewrite Hb in EB.
  apply isSubPath_spec in Hsub.
  rewrite (realpath_format f Nf) in Hsub.
  rewrite (realpath_format b) in Hsub by now rewrite Hb.
  rewrite Hb in Hsub. unfold Spec.segment_prefix in Hsub.
  destruct (common_segments_prefixes (split sep (realpath fs f)) (split sep b))
    as [r1 [_ [E1 _]]].
  set (cs := Spec.common_segments _ _) in *.
  assert (Fcs : Forall (fun seg => ~ In sep seg) cs).
  { pose proof (split_no_sep sep (realpath fs f)) as F.
    rewrite E1 in F. now apply Forall_app in F. }
  assert (Ncs : cs <> []).
  { intros Z. rewrite Z in Hsub. rewrite EB in Hsub. discriminate. }
  pose proof (split_join sep cs Ncs Fcs) as Ecs. rewrite Hsub in Ecs.
  rewrite <- Ecs in E1. clear Ecs Hsub Fcs Ncs. clearbody cs. clear cs.
  rewrite EF, EB, !split_rooted in E1. injection E1 as E1.
  rewrite EF, EB in Hne.
  destruct cB as [|xb cB].
  - destruct cF as [|xf cF]; [congruence|].
    rewrite split_join in E1 by (discriminate || now apply names_sep_free).
    simpl in E1. injection E1 as -> _.
    inversion HF as [|? ? [X _] _]. congruence.
  - rewrite (split_join sep (xb :: cB)) in E1
      by (discriminate || now apply names_sep_free).
    destruct cF as [|xf cF].
    + simpl in E1. injection E1 as <- _.
      inversion HB as [|? ? [X _] _]. congruence.
    + rewrite split_join in E1 by (discriminate || now apply names_sep_free).
      exists (xb :: cB), r1. rewrite E1 in HF. apply Forall_app in HF.
      destruct HF as [_ Hr]. repeat split; try assumption; try discriminate.
      * intros ->. rewrite app_nil_r in E1. rewrite E1 in Hne. congruence.
      * now rewrite <- E1.
Qed.

Lemma skipn_length_app {A : Type} (l r : list A) :
  skipn (length l) (l ++ r) = r.
Proof. induction l as [|x l IH]; [reflexivity|exact IH]. Qed.

Lemma rooted_not_slash_ended (comps : list str) :
  comps <> [] -> Forall clean comps ->
  endswith_char sep (sep :: join sep comps) = false.
Proof.
  intros N F. destruct (exists_last N) as [l [c ->]].
  destruct (join_snoc sep l c) as [s ->].
  apply Forall_app in F. destruct F as [_ F]. inversion F; subst.
  now apply (clean_end (sep :: s) c).
Qed.

(** C5, as the code has it: where [realpath] returns normalized paths with
    one leading slash, for an existing file [f] whose resolution is a file
    as [f] is, and a base [b] that is not a file, is its own resolution and
    has no backslash, with no backslash in the resolution of [f] either and
    [isSubPath f b]: [getRelativePath f [b]] returns a path that [findFile]
    over [[b]] maps to the canonical path of [f]. *)
Theorem relative_then_find_roundtrip (f b : str) :
  isfile fs f = true ->
  isfile fs (realpath fs f) = isfile fs f ->
  isfile fs b = false ->
  realpath fs b = b ->
  ~ In backslash b ->
  ~ In backslash (realpath fs f) ->
  isSubPath fs f b = true ->
  exists r,
    getRelativePath fs f (AList [b]) false = Ok (Some r)
    /\ findFile fs r (AList [b]) false = Some (canonicalPath fs f).
Proof.
  intros Hfile Hres Hdir Hb Nb Nf Hsub.
  assert (Hne : realpath fs f <> b).
  { intros E. rewrite E in Hres. congruence. }
  destruct (subpath_components f b Hb Nb Nf Hsub Hne)
    as [cB [rest [HB [HR [NB [NR [EB EF]]]]]]].
  pose proof (names_clean cB HB) as CB.
  pose proof (names_clean rest HR) as CR.
  pose proof (realpath_abspath b) as Ab. rewrite Hb in Ab.
  pose proof (realpath_abspath f) as Af.
  destruct (join_clean_head rest NR CR) as [h [t [J Nh]]].
  assert (Hrel : relpath (cwd fs) (realpath fs f) b = Ok (join sep rest)).
  { rewrite relpath_value by now rewrite EF.
    assert (R : rel_list (cwd fs) (realpath fs f) b = rest).
    { unfold rel_list. rewrite Ab, Af, EF, EB.
      rewrite !split_rooted.
      rewrite !split_join
        by (try (intros Z; apply app_eq_nil in Z; destruct Z; congruence);
            try assumption; apply names_sep_free;
            try apply Forall_app; auto).
      cbn [filter truthy].
      rewrite !filter_truthy_clean by (try apply Forall_app; auto).
      now rewrite commonprefix2_app, Nat.sub_diag, skipn_length_app. }
    rewrite R. now destruct rest. }
  assert (Nr : ~ In backslash (join sep rest)).
  { intros I. apply Nf. rewrite EF, join_app by assumption.
    right. apply in_or_app. right. now right. }
  assert (Hfmt : formatPathStr (join sep rest) = join sep rest).
  { unfold formatPathStr, pathToUnicode.
    rewrite <- (render_names rest NR CR) at 1.
    rewrite normpath_render by (try apply names_NF; auto).
    rewrite (render_names rest NR CR). now apply replace_absent. }
  assert (Hjoin : join2 b (join sep rest) = realpath fs f).
  { rewrite join2_plain.
    - rewrite EF, join_app by assumption. now rewrite EB.
    - rewrite J. cbn [startswith]. rewrite andb_true_r.
      apply Ascii.eqb_neq. congruence.
    - now rewrite EB.
    - rewrite EB. now apply rooted_not_slash_ended. }
  exists (join sep rest). split.
  - unfold getRelativePath, find_relto. cbn [as_list fold_left].
    rewrite Hsub, Hb, Ab, Af, Hrel. cbn [bind formatPath].
    now rewrite Hfmt.
  - unfold findFile. cbn [as_list findFile_loop].
    rewrite Hjoin, Hres, Hfile. reflexivity.
Qed.

End RoundTrip.

(** ** The symlink-free file systems are well formed *)

Lemma rooted_single_slash (comps : list str) :
  Forall clean comps -> startswith [sep; sep] (sep :: join sep comps) = false.
Proof.
  intros F. cbn [startswith]. rewrite Ascii.eqb_refl.
  destruct comps as [|x comps]; [reflexivity|].
  destruct (join_clean_head (x :: comps)) as [h [t [J N]]];
    [discriminate|assumption|].
  rewrite J. cbn [andb]. rewrite andb_true_r.
  apply Ascii.eqb_neq. congruence.
Qed.

Lemma rooted_initial_slashes (comps : list str) :
  Forall clean comps -> initial_slashes (sep :: join sep comps) = 1.
Proof.
  intros F. destruct comps as [|x comps]; [reflexivity|].
  destruct (join_clean_head (x :: comps)) as [h [t [J N]]];
    [discriminate|assumption|].
  rewrite J. apply (initial_slashes_before 1 h t); [lia|assumption].
Qed.

Lemma rooted_normal (comps : list str) :
  Forall name_ok comps -> normpath (sep :: join sep comps) = sep :: join sep comps.
Proof.
  intros F. rewrite <- render_rooted.
  apply normpath_render; [now apply names_NF|lia].
Qed.

Lemma resolve_shape (p : str) :
  exists comps,
    Forall name_ok comps /\ PlainFS.resolve p = sep :: join sep comps.
Proof.
  unfold PlainFS.resolve. cbv zeta.
  assert (A : exists q, isabs q = true /\ abspath (lit "/") p = normpath q).
  { unfold abspath. destruct (isabs p) eqn:E; [now exists p|].
    exists (join2 (lit "/") p). split; [|reflexivity].
    unfold join2. unfold isabs in E. now rewrite E. }
  destruct A as [q [Aq ->]].
  pose proof (normpath_NF q) as H. rewrite (normpath_repr q).
  pose proof (initial_slashes_absolute q Aq) as L1.
  pose proof (initial_slashes_le q) as L2.
  set (comps := fold_left _ _ _) in *. exists comps.
  assert (F : Forall name_ok comps).
  { apply (NF_rooted_names _ _ H). lia. }
  split; [assumption|].
  destruct (initial_slashes q) as [|[|[|n]]]; [lia| | |lia].
  - rewrite render_rooted, rooted_single_slash; [reflexivity|].
    now apply names_clean.
  - reflexivity.
Qed.

Lemma resolve_idem (p : str) :
  PlainFS.resolve (PlainFS.resolve p) = PlainFS.resolve p.
Proof.
  destruct (resolve_shape p) as [comps [F ->]].
  assert (A : abspath (lit "/") (sep :: join sep comps) = sep :: join sep comps).
  { unfold abspath. change (isabs (sep :: join sep comps)) with true.
    now apply rooted_normal. }
  unfold PlainFS.resolve. cbv zeta.
  rewrite A, rooted_single_slash; [reflexivity|]. now apply names_clean.
Qed.

Lemma plain_well_formed (root : list PlainFS.node) :
  WellFormed (PlainFS.make root).
Proof.
  constructor; intros p; cbn [realpath PlainFS.make].
  - destruct (resolve_shape p) as [comps [F ->]]. now apply rooted_normal.
  - destruct (resolve_shape p) as [comps [F ->]].
    apply rooted_initial_slashes. now apply names_clean.
Qed.

Lemma relative_then_find_roundtrip_witness :
  exists r,
    getRelativePath Examples.fs_rab (lit "/r/a/b") (AList [lit "/r"]) false
    = Ok (Some r)
    /\ findFile Examples.fs_rab r (AList [lit "/r"]) false
       = Some (canonicalPath Examples.fs_rab (lit "/r/a/b")).
Proof.
  apply (relative_then_find_roundtrip Examples.fs_rab
           (plain_well_formed _) (lit "/r/a/b") (lit "/r"));
    try reflexivity;
    vm_compute; intros H; repeat (destruct H as [H|H]; [discriminate|]);
      exact H.
Defined.

(** C5 does not hold as stated: with the base given relative to the working
    directory, [findFile] returns the join with the base as given, which is
    not the canonical path of the file. *)
Lemma roundtrip_fails_relative_base :
  isfile Examples.fs_rab (lit "/r/a/b") = true
  /\ isdir Examples.fs_rab (lit "r") = true
  /\ isSubPath Examples.fs_rab (lit "/r/a/b") (lit "r") = true
  /\ getRelativePath Examples.fs_rab (lit "/r/a/b") (AList [lit "r"]) false
     = Ok (Some (lit "a/b"))
  /\ findFile Examples.fs_rab (lit "a/b") (AList [lit "r"]) false
     = Some (lit "r/a/b")
  /\ canonicalPath Examples.fs_rab (lit "/r/a/b") = lit "/r/a/b".
Proof. repeat split; vm_compute; reflexivity. Qed.

(** Nor does the round trip survive a backslash in the file name: the
    relative path comes back formatted and no longer names the file. *)
Lemma roundtrip_fails_backslash :
  isfile Examples.fs_backslash (lit "/r/\x") = true
  /\ isSubPath Examples.fs_backslash (lit "/r/\x") (lit "/r") = true
  /\ getRelativePath Examples.fs_backslash (lit "/r/\x") (AList [lit "/r"]) false
     = Ok (Some (lit "/x"))
  /\ findFile Examples.fs_backslash (lit "/x") (AList [lit "/r"]) false
     = Some (lit "/x")
  /\ canonicalPath Examples.fs_backslash (lit "/r/\x") = lit "/r//x".
Proof. repeat split; vm_compute; reflexivity. Qed.

(** * Further properties of the module *)

(** ** [formatPath] *)

Lemma replace_keeps_abs (s : str) :
  isabs s = true -> isabs (replace backslash sep s) = true.
Proof.
  destruct s as [|c s]; [discriminate|].
  unfold isabs. cbn [startswith replace map]. rewrite !andb_true_r.
  intros E. apply Ascii.eqb_eq in E. subst c. reflexivity.
Qed.

(** X1: [formatPath] of a string is a string that is not empty and holds no
    backslash, and an absolute path stays absolute. *)
Theorem formatPath_output_form (p : str) :
  exists q,
    formatPath (Some p) = Some q
    /\ truthy q = true
    /\ ~ In backslash q
    /\ (isabs p = true -> isabs q = true).
Proof.
  exists (formatPathStr p). split; [reflexivity|].
  split; [apply formatPathStr_truthy|].
  split; [apply formatPathStr_no_backslash|].
  intros A. unfold formatPathStr, pathToUnicode.
  now apply replace_keeps_abs, normpath_absolute.
Qed.

Lemma formatPath_output_form_witness :
  exists q,
    formatPath (Some (lit "/a\b/../c")) = Some q /\ isabs q = true.
Proof.
  destruct (formatPath_output_form (lit "/a\b/../c")) as [q [E [_ [_ A]]]].
  exists q. split; [exact E|]. apply A. reflexivity.
Defined.

(** ** [getHomePath] *)

(** X2: [getHomePath] stores what it returns in [__home_path], and a second
    call in the environment so updated returns the same value; a directory
    named by [MH_HOME_LOCATION] overrides the stored value, and without such
    a directory the stored value is returned. *)
Theorem getHomePath_memoized (fs : FileSystem) :
  snd (getHomePath fs) = Some (fst (getHomePath fs))
  /\ getHomePath (with_home_cache fs (snd (getHomePath fs))) = getHomePath fs
  /\ (isdir fs (env_MH_HOME_LOCATION fs) = true ->
      fst (getHomePath fs) = formatPathStr (env_MH_HOME_LOCATION fs))
  /\ (isdir fs (env_MH_HOME_LOCATION fs) = false ->
      forall h, home_cache fs = Some h -> fst (getHomePath fs) = h).
Proof.
  unfold getHomePath. cbn [with_home_cache isdir env_MH_HOME_LOCATION
    home_cache sys_platform xdg_documents expanduser_home].
  destruct (isdir fs (env_MH_HOME_LOCATION fs)) eqn:E.
  - repeat split; try reflexivity; discriminate.
  - destruct (home_cache fs) as [h|] eqn:C.
    + repeat split; try reflexivity; try discriminate.
      now intros _ h' [= ->].
    + destruct (sys_platform fs); cbn [fst snd]; repeat split;
        try reflexivity; discriminate.
Qed.

Lemma getHomePath_memoized_witness :
  fst (getHomePath Examples.fs_cached) = lit "/cached".
Proof.
  apply (proj2 (proj2 (proj2 (getHomePath_memoized Examples.fs_cached))));
    reflexivity.
Defined.

(** ** The four directory accessors *)

Lemma join2_chars (Q : ascii -> Prop) (a b : str) :
  Q sep -> Forall Q a -> Forall Q b -> Forall Q (join2 a b).
Proof.
  intros Qs Fa Fb. unfold join2.
  destruct (startswith [sep] b); [assumption|].
  destruct (_ || _); apply Forall_app; split; auto.
Qed.

Lemma formatPathStr_settled (p : str) :
  ~ In backslash p -> formatPathStr (formatPathStr p) = formatPathStr p.
Proof. intros N. now apply formatPathStr_fixed, no_backslash_normpath. Qed.

Lemma no_backslash_join2 (a b : str) :
  ~ In backslash a -> ~ In backslash b -> ~ In backslash (join2 a b).
Proof.
  rewrite !not_In_Forall. intros Fa Fb.
  apply join2_chars; [discriminate|assumption|assumption].
Qed.

Lemma no_backslash_lit_data : ~ In backslash (lit "data").
Proof.
  vm_compute. intros H. repeat (destruct H as [H|H]; [discriminate|]).
  exact H.
Qed.

(** X3: for a sub-path without backslash, [getSysDataPath] is [getSysPath]
    of the sub-path under [data], and when the home path has no backslash
    either, [getDataPath] is [getPath] of the sub-path under [data]. *)
Theorem data_path_is_path_of_data (fs : FileSystem) (subPath : str) :
  ~ In backslash subPath ->
  getSysDataPath subPath
  = getSysPath (if truthy subPath then join2 (lit "data") subPath
                else lit "data")
  /\ (~ In backslash (fst (getHomePath fs)) ->
      getDataPath fs subPath
      = getPath fs (if truthy subPath then join2 (lit "data") subPath
                    else lit "data")).
Proof.
  intros N.
  assert (D : ~ In backslash (if truthy subPath then join2 (lit "data") subPath
                               else lit "data")).
  { destruct (truthy subPath); [|exact no_backslash_lit_data].
    apply no_backslash_join2; [exact no_backslash_lit_data|assumption]. }
  split.
  - unfold getSysDataPath.
    destruct (truthy subPath); unfold getSysPath;
      match goal with
      | |- context [if ?c then _ else _] => destruct c
      end; apply formatPathStr_settled;
      try apply no_backslash_join2; try assumption;
      vm_compute; intros H; repeat (destruct H as [H|H]; [discriminate|]);
      exact H.
  - intros Nh. unfold getDataPath.
    set (sub := if truthy subPath then join2 (lit "data") subPath
                else lit "data") in *.
    assert (E : (if truthy subPath then getPath fs (join2 (lit "data") subPath)
                 else getPath fs (lit "data")) = getPath fs sub).
    { unfold sub. now destruct (truthy subPath). }
    rewrite E. unfold getPath. apply formatPathStr_settled.
    assert (L : forall s, ~ In backslash (lit s) -> ~ In backslash
                  (join2 (fst (getHomePath fs)) (lit s))).
    { intros s Ns. now apply no_backslash_join2. }
    assert (B : ~ In backslash
                  (join2 match sys_platform fs with
                         | Linux => join2 (fst (getHomePath fs)) (lit "makehuman")
                         | Darwin =>
                             join2 (join2 (fst (getHomePath fs)) (lit "Documents"))
                               (lit "MakeHuman")
                         end (lit "v1py3"))).
    { apply no_backslash_join2.
      - destruct (sys_platform fs); repeat apply no_backslash_join2;
          try assumption; vm_compute; intros H;
          repeat (destruct H as [H|H]; [discriminate|]); exact H.
      - vm_compute. intros H. repeat (destruct H as [H|H]; [discriminate|]).
        exact H. }
    destruct (truthy sub); [now apply no_backslash_join2|assumption].
Qed.

Lemma data_path_is_path_of_data_witness :
  getDataPath Examples.fs_rab (lit "skins")
  = getPath Examples.fs_rab (join2 (lit "data") (lit "skins")).
Proof.
  apply (proj2 (data_path_is_path_of_data Examples.fs_rab (lit "skins")
                  ltac:(vm_compute; intros H;
                        repeat (destruct H as [H|H]; [discriminate|]);
                        exact H))).
  vm_compute. intros H. repeat (destruct H as [H|H]; [discriminate|]).
  exact H.
Defined.

(** X4: an absolute sub-path replaces the directory it is joined to:
    [getPath] and [getSysPath] then return the formatted sub-path itself,
    whatever the home path is. *)
Theorem absolute_subpath_escapes (fs : FileSystem) (subPath : str) :
  isabs subPath = true ->
  getPath fs subPath = formatPathStr subPath
  /\ getSysPath subPath = formatPathStr subPath.
Proof.
  intros A. assert (T : truthy subPath = true) by now destruct subPath.
  unfold getPath, getSysPath. rewrite T.
  unfold join2. unfold isabs in A. now rewrite A.
Qed.

Lemma absolute_subpath_escapes_witness :
  getPath Examples.fs_rab (lit "/etc/passwd") = formatPathStr (lit "/etc/passwd").
Proof.
  apply (absolute_subpath_escapes Examples.fs_rab (lit "/etc/passwd")).
  reflexivity.
Defined.

(** ** [commonprefix], [isSubPath] and [isSamePath] *)

Lemma zip_one (l : list str) :
  map (fun x => hd [] x) (takewhile _allnamesequal (zip_star [l])) = l.
Proof.
  unfold zip_star. induction l as [|x l IH]; [reflexivity|].
  cbn [zip_from forallb map takewhile _allnamesequal hd]. now rewrite IH.
Qed.

Lemma common_segments_sym (a b : list str) :
  Spec.common_segments a b = Spec.common_segments b a.
Proof.
  revert b. induction a as [|x a IH]; intros [|y b]; try reflexivity.
  simpl. destruct (str_dec x y) as [E|N], (str_dec y x) as [E'|N'];
    try congruence.
Qed.

(** X5: [commonprefix] of no path is the empty string, of one path that
    path, and of two paths does not depend on their order. *)
Theorem commonprefix_small_lists (c : ascii) :
  commonprefix [] c = []
  /\ (forall p, commonprefix [p] c = p)
  /\ (forall a b, commonprefix [a; b] c = commonprefix [b; a] c).
Proof.
  split; [reflexivity|]. split.
  - intros p. unfold commonprefix. cbn [map]. rewrite zip_one.
    apply join_split.
  - intros a b. now rewrite !commonprefix_two, common_segments_sym.
Qed.

Lemma common_segments_app (l r : list str) :
  Spec.common_segments (l ++ r) l = l.
Proof.
  induction l as [|x l IH]; [now destruct r|].
  simpl. destruct (str_dec x x); congruence.
Qed.

Lemma canonicalPath_truthy (fs : FileSystem) (p : str) :
  truthy (canonicalPath fs p) = true.
Proof. apply formatPathStr_truthy. Qed.

(** [isSubPath] compares lists of segments. *)
Lemma isSubPath_prefix (fs : FileSystem) (f b : str) :
  isSubPath fs f b = true
  <-> exists rest,
        split sep (canonicalPath fs f) = split sep (canonicalPath fs b) ++ rest.
Proof.
  rewrite isSubPath_spec. unfold Spec.segment_prefix.
  pose proof (canonicalPath_truthy fs b) as T.
  set (cf := canonicalPath fs f) in *. set (cb := canonicalPath fs b) in *.
  split.
  - intros H.
    destruct (common_segments_prefixes (split sep cf) (split sep cb))
      as [r1 [_ [E1 _]]].
    set (cs := Spec.common_segments _ _) in *.
    assert (Fcs : Forall (fun seg => ~ In sep seg) cs).
    { pose proof (split_no_sep sep cf) as F. rewrite E1 in F.
      now apply Forall_app in F. }
    assert (Ncs : cs <> []).
    { intros Z. rewrite Z in H. simpl in H. rewrite <- H in T. discriminate. }
    pose proof (split_join sep cs Ncs Fcs) as Ecs. rewrite H in Ecs.
    exists r1. now rewrite Ecs.
  - intros [rest E]. rewrite E, common_segments_app. apply join_split.
Qed.

(** X6: [isSubPath sub base] holds exactly when the segments of the
    canonical form of [base] are the first segments of the canonical form of
    [sub]. *)
Theorem isSubPath_iff_leading_segments (fs : FileSystem) (sub base : str) :
  isSubPath fs sub base = true
  <-> exists rest,
        split sep (canonicalPath fs sub)
        = split sep (canonicalPath fs base) ++ rest.
Proof. apply isSubPath_prefix. Qed.

Lemma isSubPath_iff_leading_segments_witness :
  exists rest,
    split sep (canonicalPath Examples.fs_rab (lit "/r/a/b"))
    = split sep (canonicalPath Examples.fs_rab (lit "/r")) ++ rest.
Proof.
  apply (proj1 (isSubPath_iff_leading_segments Examples.fs_rab (lit "/r/a/b")
                  (lit "/r"))).
  reflexivity.
Defined.

(** X7: [isSubPath] is transitive, and two paths are subpaths of each other
    exactly when [isSamePath] holds of them. *)
Theorem isSubPath_order (fs : FileSystem) :
  (forall a b c,
      isSubPath fs a b = true -> isSubPath fs b c = true ->
      isSubPath fs a c = true)
  /\ (forall a b,
         isSubPath fs a b = true /\ isSubPath fs b a = true
         <-> isSamePath fs a b = true).
Proof.
  split.
  - intros a b c Hab Hbc. apply isSubPath_prefix in Hab, Hbc.
    destruct Hab as [r1 E1], Hbc as [r2 E2]. apply isSubPath_prefix.
    exists (r2 ++ r1). now rewrite E1, E2, app_assoc.
  - intros a b. unfold isSamePath. rewrite str_eqb_eq. split.
    + intros [Hab Hba]. apply isSubPath_prefix in Hab, Hba.
      destruct Hab as [r1 E1], Hba as [r2 E2].
      assert (L : length r1 = 0).
      { apply (f_equal (@length _)) in E1, E2.
        rewrite length_app in E1, E2. lia. }
      destruct r1; [|discriminate]. rewrite app_nil_r in E1.
      rewrite <- (join_split sep (canonicalPath fs a)), E1.
      apply join_split.
    + intros E. unfold isSubPath. rewrite E, commonprefix_two,
        common_segments_diag, join_split. now rewrite str_eqb_refl.
Qed.

Lemma isSubPath_order_witness :
  isSubPath Examples.fs_rab (lit "/r/a/b") (lit "r") = true.
Proof.
  apply (proj1 (isSubPath_order Examples.fs_rab) (lit "/r/a/b") (lit "/r/a")
           (lit "r")); reflexivity.
Defined.

(** X8: where [realpath] returns normalized paths with one leading slash,
    the root directory has no subpath but itself: a path without backslash whose resolution is not [/] is not a
    subpath of a base that resolves to [/]. *)
Theorem root_contains_only_itself (fs : FileSystem) (f b : str) :
  WellFormed fs ->
  realpath fs b = lit "/" ->
  ~ In backslash (realpath fs f) ->
  realpath fs f <> lit "/" ->
  isSubPath fs f b = false.
Proof.
  intros W Hb Nf Hne. destruct (isSubPath fs f b) eqn:S; [|reflexivity].
  apply isSubPath_prefix in S. destruct S as [rest E].
  rewrite (realpath_format fs W f Nf) in E.
  unfold canonicalPath in E at 1. rewrite Hb in E.
  destruct (realpath_shape fs W f) as [cF [HF EF]]. rewrite EF in E, Hne.
  rewrite split_rooted in E.
  destruct cF as [|x cF]; [now destruct Hne|].
  rewrite split_join in E by (discriminate || now apply names_sep_free).
  change (split sep (formatPathStr (lit "/"))) with [@nil ascii; []] in E.
  injection E as E _. inversion HF as [|? ? [X _] _]. congruence.
Qed.

Lemma root_contains_only_itself_witness :
  isSubPath Examples.fs_rab (lit "/r/a") (lit "/") = false.
Proof.
  apply (root_contains_only_itself Examples.fs_rab (lit "/r/a") (lit "/")
           (plain_well_formed _)); try reflexivity.
  - vm_compute. intros H. repeat (destruct H as [H|H]; [discriminate|]).
    exact H.
  - vm_compute. discriminate.
Defined.

(** ** [getRelativePath] *)

(** X9: [getRelativePath] never raises; without [strict] it always returns a
    string, and with [strict] it returns [None] exactly when no entry of the
    list contains the path. *)
Theorem getRelativePath_total (fs : FileSystem) (path : str) (relativeTo : pathsArg) :
  (exists s, getRelativePath fs path relativeTo false = Ok (Some s))
  /\ (exists r, getRelativePath fs path relativeTo true = Ok r)
  /\ (getRelativePath fs path relativeTo true = Ok None
      <-> forall e, In e (as_list relativeTo) -> isSubPath fs path e = false).
Proof.
  destruct (find_relto fs path (as_list relativeTo)) as [base|] eqn:E.
  - destruct (getRelativePath_found fs path relativeTo false base E)
      as [r0 [_ G0]].
    destruct (getRelativePath_found fs path relativeTo true base E)
      as [r1 [_ G1]].
    destruct (find_relto_found fs path _ base E) as [I Hb].
    split; [eauto|]. split; [eauto|]. rewrite G1. split; [discriminate|].
    intros H. rewrite (H base I) in Hb. discriminate.
  - unfold getRelativePath. rewrite E.
    split; [eauto|]. split; [eauto|]. split; [|reflexivity].
    intros _. now apply find_relto_missing.
Qed.

Lemma getRelativePath_total_witness :
  getRelativePath Examples.fs_rab (lit "/r/a/b") (AList [lit "/x"; lit "/r/c"]) true
  = Ok None.
Proof.
  apply (proj2 (proj2 (getRelativePath_total Examples.fs_rab (lit "/r/a/b")
                         (AList [lit "/x"; lit "/r/c"])))).
  intros e [<-|[<-|[]]]; reflexivity.
Defined.

Lemma commonprefix2_diag (l : list str) : commonprefix2 l l = l.
Proof.
  induction l as [|x l IH]; [reflexivity|].
  simpl. now rewrite str_eqb_refl, IH.
Qed.

Lemma relpath_same (cwd p q : str) :
  truthy p = true -> abspath cwd p = abspath cwd q ->
  relpath cwd p q = Ok curdir.
Proof.
  intros T E. rewrite (relpath_value cwd p q T). unfold rel_list.
  rewrite E, commonprefix2_diag, Nat.sub_diag, skipn_all. reflexivity.
Qed.

(** X10: a path whose resolution is that of the base is relativized to
    [.]; in particular every path relative to itself is [.]. *)
Theorem getRelativePath_of_base (fs : FileSystem) (path base : str)
  (strict : bool) :
  realpath fs path = realpath fs base ->
  getRelativePath fs path (AList [base]) strict = Ok (Some (lit ".")).
Proof.
  intros E. unfold getRelativePath, find_relto. cbn [as_list fold_left].
  assert (S : isSubPath fs path base = true).
  { unfold isSubPath, canonicalPath. rewrite E, commonprefix_two,
      common_segments_diag, join_split. apply str_eqb_refl. }
  rewrite S, E, relpath_same; [reflexivity|apply abspath_truthy|reflexivity].
Qed.

Lemma getRelativePath_of_base_witness :
  getRelativePath Examples.fs_rab (lit "/r/./a/") (AList [lit "r/a"]) true
  = Ok (Some (lit ".")).
Proof.
  apply (getRelativePath_of_base Examples.fs_rab (lit "/r/./a/") (lit "r/a") true).
  reflexivity.
Defined.

(** The relative path of a resolved file under a resolved base, joined to
    the base, is the resolved file. *)
Lemma relativize_under_base (fs : FileSystem) (f b : str) :
  WellFormed fs ->
  realpath fs b = b ->
  ~ In backslash b ->
  ~ In backslash (realpath fs f) ->
  isSubPath fs f b = true ->
  realpath fs f <> b ->
  exists r,
    relpath (cwd fs) (realpath fs f) b = Ok r
    /\ formatPathStr r = r
    /\ join2 b r = realpath fs f
    /\ isabs r = false.
Proof.
  intros W Hb Nb Nf Hsub Hne.
  destruct (subpath_components fs W f b Hb Nb Nf Hsub Hne)
    as [cB [rest [HB [HR [NB [NR [EB EF]]]]]]].
  pose proof (names_clean cB HB) as CB.
  pose proof (names_clean rest HR) as CR.
  pose proof (realpath_abspath fs W b) as Ab. rewrite Hb in Ab.
  pose proof (realpath_abspath fs W f) as Af.
  destruct (join_clean_head rest NR CR) as [h [t [J Nh]]].
  exists (join sep rest). split; [|split; [|split]].
  - rewrite relpath_value by now rewrite EF.
    assert (R : rel_list (cwd fs) (realpath fs f) b = rest).
    { unfold rel_list. rewrite Ab, Af, EF, EB, !split_rooted.
      rewrite !split_join
        by (try (intros Z; apply app_eq_nil in Z; destruct Z; congruence);
            try assumption; apply names_sep_free;
            try apply Forall_app; auto).
      cbn [filter truthy].
      rewrite !filter_truthy_clean by (try apply Forall_app; auto).
      now rewrite commonprefix2_app, Nat.sub_diag, skipn_length_app. }
    rewrite R. now destruct rest.
  - unfold formatPathStr, pathToUnicode.
    rewrite <- (render_names rest NR CR) at 1.
    rewrite normpath_render by (try apply names_NF; auto).
    rewrite (render_names rest NR CR). apply replace_absent.
    intros I. apply Nf. rewrite EF, join_app by assumption.
    right. apply in_or_app. right. now right.
  - rewrite join2_plain.
    + rewrite EF, join_app by assumption. now rewrite EB.
    + rewrite J. cbn [startswith]. rewrite andb_true_r.
      apply Ascii.eqb_neq. congruence.
    + now rewrite EB.
    + rewrite EB. now apply rooted_not_slash_ended.
  - rewrite J. now apply isabs_head.
Qed.

(** X11: where [realpath] returns normalized paths with one leading slash,
    for a base that is its own
    resolution and a path resolving strictly below it, neither with a
    backslash, [getRelativePath] returns a relative path which
    [os.path.join] puts back onto the base to give the resolved path. *)
Theorem getRelativePath_then_join (fs : FileSystem) (f b : str) (strict : bool) :
  WellFormed fs ->
  realpath fs b = b ->
  ~ In backslash b ->
  ~ In backslash (realpath fs f) ->
  isSubPath fs f b = true ->
  realpath fs f <> b ->
  exists r,
    getRelativePath fs f (AList [b]) strict = Ok (Some r)
    /\ isabs r = false
    /\ join2 b r = realpath fs f.
Proof.
  intros W Hb Nb Nf Hsub Hne.
  destruct (relativize_under_base fs f b W Hb Nb Nf Hsub Hne)
    as [r [Hr [Fr [Jr Ar]]]].
  exists r. repeat split; try assumption.
  unfold getRelativePath, find_relto. cbn [as_list fold_left].
  pose proof (realpath_abspath fs W b) as Ab. rewrite Hb in Ab.
  rewrite Hsub, Hb, Ab, (realpath_abspath fs W f), Hr.
  cbn [bind formatPath]. now rewrite Fr.
Qed.

Lemma getRelativePath_then_join_witness :
  exists r,
    getRelativePath Examples.fs_rab (lit "/r/x/../a/b") (AList [lit "/r"]) true
    = Ok (Some r)
    /\ isabs r = false
    /\ join2 (lit "/r") r = realpath Examples.fs_rab (lit "/r/x/../a/b").
Proof.
  apply (getRelativePath_then_join Examples.fs_rab (lit "/r/x/../a/b") (lit "/r")
           true (plain_well_formed _)); try reflexivity;
    vm_compute; try discriminate;
    intros H; repeat (destruct H as [H|H]; [discriminate|]); exact H.
Defined.

(** ** [findFile] *)

Lemma join2_absolute (a b : str) : isabs b = true -> join2 a b = b.
Proof. intros A. unfold join2. unfold isabs in A. now rewrite A. Qed.

(** X12: an absolute [relPath] is looked up as it is, whatever the search
    paths are, as long as there is one. *)
Theorem findFile_absolute (fs : FileSystem) (relPath d : str) (rest : list str)
  (strict : bool) :
  isabs relPath = true ->
  findFile fs relPath (AList (d :: rest)) strict
  = if isfile fs relPath then Some (formatPathStr relPath)
    else if strict then None else Some relPath.
Proof.
  intros A. unfold findFile. cbn [as_list].
  destruct (isfile fs relPath) eqn:F.
  - cbn [findFile_loop]. now rewrite (join2_absolute d relPath A), F.
  - rewrite findFile_loop_none; [reflexivity|].
    intros x _. now rewrite (join2_absolute x relPath A).
Qed.

Lemma findFile_absolute_witness :
  findFile Examples.fs_rab (lit "/r/a/b") (AList [lit "/nowhere"]) true
  = Some (formatPathStr (lit "/r/a/b")).
Proof.
  apply (findFile_absolute Examples.fs_rab (lit "/r/a/b") (lit "/nowhere") []
           true).
  reflexivity.
Defined.

Lemma findFile_loop_found (fs : FileSystem) (relPath : str) (l : list str)
  (p : str) :
  findFile_loop fs relPath l = Some p ->
  exists d, In d l /\ isfile fs (join2 d relPath) = true
            /\ p = formatPathStr (join2 d relPath).
Proof.
  induction l as [|x l IH]; [discriminate|].
  cbn [findFile_loop]. destruct (isfile fs (join2 x relPath)) eqn:F.
  - intros [= <-]. exists x. repeat split; [now left|assumption].
  - intros H. destruct (IH H) as [d [I [Fd E]]]. exists d.
    repeat split; [now right|assumption|assumption].
Qed.

(** X13: a strict [findFile] returns [None] exactly when no search path
    joined with the relative path is a file, and what it returns otherwise
    is the formatted join at a search path where the join is a file; without
    [strict] the result is never [None]. *)
Theorem findFile_strict_result (fs : FileSystem) (relPath : str)
  (searchPaths : list str) :
  (findFile fs relPath (AList searchPaths) true = None
   <-> forall d, In d searchPaths -> isfile fs (join2 d relPath) = false)
  /\ (forall p,
         findFile fs relPath (AList searchPaths) true = Some p ->
         exists d, In d searchPaths /\ isfile fs (join2 d relPath) = true
                   /\ p = formatPathStr (join2 d relPath))
  /\ findFile fs relPath (AList searchPaths) false <> None.
Proof.
  unfold findFile. cbn [as_list].
  destruct (findFile_loop fs relPath searchPaths) as [p|] eqn:E.
  - destruct (findFile_loop_found fs relPath searchPaths p E) as [d [I [F Ep]]].
    split; [|split; [|discriminate]].
    + split; [discriminate|]. intros H. rewrite (H d I) in F. discriminate.
    + intros q [= <-]. now exists d.
  - split; [|split; [discriminate|discriminate]].
    split; [|reflexivity]. intros _ d I.
    destruct (isfile fs (join2 d relPath)) eqn:F; [|reflexivity].
    apply in_split in I. destruct I as [l1 [l2 ->]].
    assert (X : exists q, findFile_loop fs relPath (l1 ++ d :: l2) = Some q).
    { clear E. induction l1 as [|y l1 IH]; cbn [app findFile_loop].
      - rewrite F. cbn [formatPath]. eauto.
      - destruct (isfile fs (join2 y relPath)); cbn [formatPath]; eauto. }
    destruct X as [q X]. congruence.
Qed.

Lemma findFile_strict_result_witness :
  exists d,
    In d [lit "/x"; lit "/r"]
    /\ isfile Examples.fs_rab (join2 d (lit "a/b")) = true
    /\ lit "/r/a/b" = formatPathStr (join2 d (lit "a/b")).
Proof.
  apply (proj1 (proj2 (findFile_strict_result Examples.fs_rab (lit "a/b")
                         [lit "/x"; lit "/r"]))).
  reflexivity.
Defined.

(** ** [thoroughFindFile] *)

Lemma thoroughFindFile_rec_formatted (fs : FileSystem) (fuel : nat) :
  forall filename searchPaths searchDefaultPaths,
    truthy (thoroughFindFile_rec fs fuel filename searchPaths searchDefaultPaths)
    = true
    /\ ~ In backslash
         (thoroughFindFile_rec fs fuel filename searchPaths searchDefaultPaths).
Proof.
  assert (C : forall p, truthy (canonicalPath fs p) = true
                        /\ ~ In backslash (canonicalPath fs p)).
  { intros p. split; [apply formatPathStr_truthy|apply formatPathStr_no_backslash]. }
  assert (B : forall p, truthy (formatPathStr p) = true
                        /\ ~ In backslash (formatPathStr p)).
  { intros p. split; [apply formatPathStr_truthy|apply formatPathStr_no_backslash]. }
  induction fuel as [|fuel IH]; intros filename sp sdp;
    cbn [thoroughFindFile_rec];
    match goal with
    | |- context [match ?o with Some _ => _ | None => _ end] =>
        destruct o; [apply C|]
    end;
    (destruct (isfile fs filename); [apply C|]);
    (destruct (startswith (lit "data/") filename); [|apply B]).
  - apply B.
  - match goal with
    | |- context [isfile fs ?r] => destruct (isfile fs r); [apply IH|apply B]
    end.
Qed.

(** X14: whatever it finds, [thoroughFindFile] returns a string that is not
    empty and holds no backslash. *)
Theorem thoroughFindFile_formatted (fs : FileSystem) (filename : str)
  (searchPaths : pathsArg) (searchDefaultPaths : bool) :
  truthy (thoroughFindFile fs filename searchPaths searchDefaultPaths) = true
  /\ ~ In backslash (thoroughFindFile fs filename searchPaths searchDefaultPaths).
Proof. apply thoroughFindFile_rec_formatted. Qed.

(** X15: where no path is a file, [thoroughFindFile] returns the formatted
    file name, whatever the search paths. *)
Theorem thoroughFindFile_nothing_found (fs : FileSystem) (filename : str)
  (searchPaths : pathsArg) (searchDefaultPaths : bool) :
  (forall p, isfile fs p = false) ->
  thoroughFindFile fs filename searchPaths searchDefaultPaths
  = formatPathStr filename.
Proof.
  intros N. unfold thoroughFindFile.
  destruct (length filename) as [|fuel]; cbn [thoroughFindFile_rec];
    unfold findFile; cbn [as_list];
    rewrite findFile_loop_none by (intros; apply N);
    cbn [truthy_opt]; rewrite !N;
    now destruct (startswith (lit "data/") filename).
Qed.

Lemma thoroughFindFile_nothing_found_witness :
  thoroughFindFile Examples.fs_app (lit "data/skins\x.png") (AList []) true
  = formatPathStr (lit "data/skins\x.png").
Proof.
  apply (thoroughFindFile_nothing_found Examples.fs_app).
  reflexivity.
Defined.

(** ** [search] *)

Import ScanSpec.

Lemma visit_all_plain (exts : list str) (todo : list (str * str)) (d : dict)
  (out : list str) :
  visit_all exts false (d, out) todo
  = ((d, out ++ map snd (filter (fun nf => listed exts (fst nf)) todo)), None).
Proof.
  revert out. induction todo as [|[name fp] todo IH]; intros out.
  - cbn. now rewrite app_nil_r.
  - cbn [visit_all filter map fst]. unfold visit. fold (listed exts name).
    destruct (listed exts name).
    + rewrite IH. cbn [map snd]. unfold pathToUnicode.
      now rewrite <- app_assoc.
    + apply IH.
Qed.

(** X16: without [mutexExtensions], [search] raises nothing and yields, in
    the order of the traversal, exactly the files met whose extension in
    lower case is one of the normalized extensions. *)
Theorem search_without_mutex (fs : FileSystem) (paths extensions : pathsArg)
  (recursive : bool) :
  search fs paths extensions recursive false
  = (map snd
       (filter (fun nf => listed (normalize_extensions (as_list extensions))
                                 (fst nf))
               (visited fs (as_list paths) recursive)),
     None).
Proof. unfold search. now rewrite visit_all_plain. Qed.

Lemma lower_char_dot (c : ascii) :
  Ascii.eqb extsep (lower_char c) = Ascii.eqb extsep c.
Proof. destruct c as [[] [] [] [] [] [] [] []]; reflexivity. Qed.

Lemma startswith_dot_lower (e : str) :
  startswith [extsep] (lower e) = startswith [extsep] e.
Proof.
  destruct e as [|c e]; [reflexivity|].
  cbn [lower map startswith]. now rewrite lower_char_dot.
Qed.

Lemma drop_lower (n : nat) (e : str) : drop n (lower e) = lower (drop n e).
Proof. unfold drop, lower. now rewrite skipn_map. Qed.

Lemma normalize_lower (l : list str) :
  normalize_extensions (map lower l) = normalize_extensions l.
Proof.
  unfold normalize_extensions. rewrite map_map. apply map_ext. intros e.
  rewrite startswith_dot_lower, drop_lower, !lower_idem. reflexivity.
Qed.

Lemma normalize_dotted (l : list str) :
  Forall (fun e => startswith [extsep] e = false) l ->
  normalize_extensions (map (cons extsep) l) = normalize_extensions l.
Proof.
  intros F. unfold normalize_extensions. rewrite map_map.
  apply map_ext_in. intros e I. rewrite Forall_forall in F.
  rewrite (F e I). cbn [startswith]. now rewrite Ascii.eqb_refl.
Qed.

(** X17: [search] does not depend on the case of the extensions it is given,
    nor on a dot put in front of those that have none. *)
Theorem search_extension_spelling (fs : FileSystem) (paths : pathsArg)
  (extensions : list str) (recursive mutexExtensions : bool) :
  search fs paths (AList (map lower extensions)) recursive mutexExtensions
  = search fs paths (AList extensions) recursive mutexExtensions
  /\ (Forall (fun e => startswith [extsep] e = false) extensions ->
      search fs paths (AList (map (cons extsep) extensions)) recursive
        mutexExtensions
      = search fs paths (AList extensions) recursive mutexExtensions).
Proof.
  unfold search. cbn [as_list]. split.
  - now rewrite normalize_lower.
  - intros F. now rewrite normalize_dotted.
Qed.

Lemma search_extension_spelling_witness :
  search Examples.fs_mutex (AStr (lit "/d")) (AList [lit ".obj"; lit ".mhclo"])
    false true
  = search Examples.fs_mutex (AStr (lit "/d")) (AList [lit "obj"; lit "mhclo"])
      false true.
Proof.
  apply (proj2 (search_extension_spelling Examples.fs_mutex (AStr (lit "/d"))
                  [lit "obj"; lit "mhclo"] false true)).
  repeat constructor.
Defined.

(** *** The dict of the [mutexExtensions] mode *)

Lemma dict_get_set (d : dict) (k v k' : str) :
  dict_get (dict_set d k v) k'
  = if str_eqb k k' then Some v else dict_get d k'.
Proof.
  induction d as [|[k0 v0] d IH]; [reflexivity|].
  cbn [dict_set]. destruct (str_eqb k0 k) eqn:E0.
  - apply str_eqb_eq in E0. subst k0. cbn [dict_get].
    now destruct (str_eqb k k').
  - cbn [dict_get]. rewrite IH. destruct (str_eqb k0 k') eqn:E1; [|reflexivity].
    apply str_eqb_eq in E1. subst k0. now rewrite str_eqb_sym, E0.
Qed.

Lemma dict_get_absent (d : dict) (k : str) :
  dict_get d k = None <-> ~ In k (map fst d).
Proof.
  induction d as [|[k0 v0] d IH]; cbn [dict_get map fst In].
  - tauto.
  - destruct (str_eqb k0 k) eqn:E.
    + apply str_eqb_eq in E. split; [discriminate|]. intros N. destruct N. now left.
    + apply str_eqb_neq in E. rewrite IH. tauto.
Qed.

Lemma dict_set_keys (d : dict) (k v : str) :
  map fst (dict_set d k v)
  = match dict_get d k with
    | Some _ => map fst d
    | None => map fst d ++ [k]
    end.
Proof.
  induction d as [|[k0 v0] d IH]; [reflexivity|].
  cbn [dict_set dict_get]. destruct (str_eqb k0 k); [reflexivity|].
  cbn [map fst]. rewrite IH. now destruct (dict_get d k).
Qed.

Lemma dict_set_NoDup (d : dict) (k v : str) :
  NoDup (map fst d) -> NoDup (map fst (dict_set d k v)).
Proof.
  intros N. rewrite dict_set_keys. destruct (dict_get d k) eqn:G; [assumption|].
  apply dict_get_absent in G. apply NoDup_app; [assumption|repeat constructor; intros []|].
  intros x I [<-|[]]. contradiction.
Qed.

Lemma dict_get_In (d : dict) (k v : str) :
  dict_get d k = Some v -> In (k, v) d.
Proof.
  induction d as [|[k0 v0] d IH]; [discriminate|].
  cbn [dict_get]. destruct (str_eqb k0 k) eqn:E.
  - apply str_eqb_eq in E. subst. intros [= ->]. now left.
  - intros H. right. now apply IH.
Qed.

Lemma dict_In_get (d : dict) (k v : str) :
  NoDup (map fst d) -> In (k, v) d -> dict_get d k = Some v.
Proof.
  induction d as [|[k0 v0] d IH]; intros N I; [destruct I|].
  cbn [map fst] in N. inversion N as [|? ? N0 N1]; subst.
  cbn [dict_get]. destruct I as [[= -> ->]|I].
  - now rewrite str_eqb_refl.
  - destruct (str_eqb k0 k) eqn:E; [|now apply IH].
    apply str_eqb_eq in E. subst. destruct N0.
    apply (in_map fst) in I. exact I.
Qed.

Lemma index_position (l : list str) (x : str) :
  contains l x = true -> index l x = Ok (position l x).
Proof.
  induction l as [|y l IH]; [discriminate|].
  cbn [contains existsb index position]. destruct (str_eqb y x); [reflexivity|].
  cbn [orb]. intros C. unfold contains in IH. now rewrite (IH C).
Qed.

(** One aggregation step where the extension as written is listed. *)
Lemma aggregate_listed (E : list str) (d : dict) (fp : str) :
  contains E (ext_of fp) = true ->
  (forall k v, dict_get d k = Some v -> contains E v = true) ->
  exists w,
    _aggregate_files_mutexExt E d fp = Ok (dict_set d (base_of fp) w)
    /\ contains E w = true
    /\ position E w <= position E (ext_of fp)
    /\ (w = ext_of fp \/ dict_get d (base_of fp) = Some w)
    /\ (forall v, dict_get d (base_of fp) = Some v ->
                  position E w <= position E v).
Proof.
  intros C L. unfold _aggregate_files_mutexExt, ext_of, base_of in *.
  destruct (splitext fp) as [basep ext]. cbn [fst snd] in *.
  destruct (dict_get d basep) as [old|] eqn:G.
  - rewrite (index_position E _ C), (index_position E old (L _ _ G)).
    cbn [bind]. destruct (position E (drop 1 ext) <? position E old) eqn:Lt.
    + apply Nat.ltb_lt in Lt. exists (drop 1 ext).
      repeat split; auto. intros v [= <-]. lia.
    + apply Nat.ltb_ge in Lt. exists old.
      assert (S : dict_set d basep old = d).
      { clear - G. induction d as [|[k0 v0] d IH]; [discriminate|].
        cbn [dict_get dict_set] in *. destruct (str_eqb k0 basep).
        - now injection G as ->.
        - now rewrite IH. }
      rewrite S. repeat split; eauto. now intros v [= <-].
  - exists (drop 1 ext). repeat split; auto. discriminate.
Qed.

Lemma visit_all_mutex_spec (E : list str) (todo : list (str * str)) :
  forall (d : dict) (out : list str),
    (forall nf, In nf todo -> listed E (fst nf) = true ->
                contains E (ext_of (snd nf)) = true) ->
    (forall k v, dict_get d k = Some v -> contains E v = true) ->
    NoDup (map fst d) ->
    exists d',
      visit_all E true (d, out) todo = ((d', out), None)
      /\ NoDup (map fst d')
      /\ (forall k v, dict_get d' k = Some v -> contains E v = true)
      /\ (forall k v, dict_get d k = Some v ->
            exists w, dict_get d' k = Some w /\ position E w <= position E v)
      /\ (forall nf, In nf todo -> listed E (fst nf) = true ->
            exists w, dict_get d' (base_of (snd nf)) = Some w
                      /\ position E w <= position E (ext_of (snd nf)))
      /\ (forall k w, dict_get d' k = Some w ->
            dict_get d k = Some w
            \/ exists nf, In nf todo /\ listed E (fst nf) = true
                          /\ base_of (snd nf) = k /\ ext_of (snd nf) = w).
Proof.
  induction todo as [|[name fp] todo IH]; intros d out H L N.
  - exists d. cbn [visit_all]. repeat split; auto.
    + intros k v G. exists v. split; [assumption|lia].
    + intros nf [].
  - cbn [visit_all]. unfold visit. fold (listed E name).
    destruct (listed E name) eqn:Li.
    + destruct (aggregate_listed E d fp (H (name, fp) (or_introl eq_refl) Li) L)
        as [w [A [Cw [Pw [Ow Mw]]]]].
      rewrite A. cbn [bind].
      set (d1 := dict_set d (base_of fp) w) in *.
      assert (G1 : forall k, dict_get d1 k
                             = if str_eqb (base_of fp) k then Some w
                               else dict_get d k).
      { intros k. apply dict_get_set. }
      destruct (IH d1 out) as [d' [V [N' [L' [M' [T' P']]]]]].
      * intros nf I. apply H. now right.
      * intros k v. rewrite G1. destruct (str_eqb (base_of fp) k).
        -- now intros [= <-].
        -- apply L.
      * now apply dict_set_NoDup.
      * exists d'. split; [exact V|]. split; [exact N'|]. split; [exact L'|].
        split; [|split].
        -- intros k v G. destruct (str_eqb (base_of fp) k) eqn:Ek.
           ++ apply str_eqb_eq in Ek. subst k.
              destruct (M' (base_of fp) w) as [w' [G' P]].
              { now rewrite G1, str_eqb_refl. }
              exists w'. split; [assumption|]. specialize (Mw v G). lia.
           ++ apply (M' k v). now rewrite G1, Ek.
        -- intros nf [<-|I] Ln.
           ++ cbn [snd]. destruct (M' (base_of fp) w) as [w' [G' P]].
              { now rewrite G1, str_eqb_refl. }
              exists w'. split; [assumption|lia].
           ++ now apply T'.
        -- intros k w' G'. destruct (P' k w' G') as [G|[nf [I [Ln [Bn En]]]]].
           ++ rewrite G1 in G. destruct (str_eqb (base_of fp) k) eqn:Ek.
              ** apply str_eqb_eq in Ek. subst k. injection G as <-.
                 destruct Ow as [->|Ow]; [|now left].
                 right. exists (name, fp). repeat split; auto. now left.
              ** now left.
           ++ right. exists nf. repeat split; auto. now right.
    + destruct (IH d out) as [d' [V [N' [L' [M' [T' P']]]]]]; auto.
      * intros nf I. apply H. now right.
      * exists d'. repeat split; auto.
        -- intros nf [<-|I] Ln; [cbn [fst] in Ln; congruence|now apply T'].
        -- intros k w G. destruct (P' k w G) as [G0|[nf [I X]]]; [now left|].
           right. exists nf. split; [now right|exact X].
Qed.

Lemma search_mutex_run (fs : FileSystem) (paths extensions : pathsArg)
  (recursive : bool) (d : dict) :
  visit_all (normalize_extensions (as_list extensions)) true ([], [])
    (visited fs (as_list paths) recursive) = ((d, []), None) ->
  search fs paths extensions recursive true = (map rebuilt d, None).
Proof.
  intros V. unfold search. rewrite V. cbn [app]. f_equal.
  apply map_ext. now intros [p e].
Qed.

(** X18: in a [mutexExtensions] search where every file that matches has
    its extension, as written, among the normalized extensions, nothing is
    raised and the paths yielded come from a dict with one entry for each
    extension-stripped path of a matching file, and no other entry. *)
Theorem search_mutex_one_per_base (fs : FileSystem) (paths extensions : pathsArg)
  (recursive : bool) :
  let E := normalize_extensions (as_list extensions) in
  let met := visited fs (as_list paths) recursive in
  (forall nf, In nf met -> listed E (fst nf) = true ->
              contains E (ext_of (snd nf)) = true) ->
  exists d,
    search fs paths extensions recursive true = (map rebuilt d, None)
    /\ NoDup (map fst d)
    /\ (forall nf, In nf met -> listed E (fst nf) = true ->
                   In (base_of (snd nf)) (map fst d))
    /\ (forall k, In k (map fst d) ->
                  exists nf, In nf met /\ listed E (fst nf) = true
                             /\ base_of (snd nf) = k).
Proof.
  intros E met H.
  destruct (visit_all_mutex_spec E met [] [] H) as [d [V [N [_ [_ [T P]]]]]];
    [discriminate|constructor|].
  exists d. split; [now apply search_mutex_run|]. split; [exact N|]. split.
  - intros nf I L. destruct (T nf I L) as [w [G _]].
    apply dict_get_In in G. now apply (in_map fst) in G.
  - intros k I. apply in_map_iff in I. destruct I as [[k' w] [<- I]].
    apply (dict_In_get d k' w N) in I.
    destruct (P k' w I) as [G|[nf [In' [L [B _]]]]]; [discriminate|].
    now exists nf.
Qed.

Lemma fs_mutex_listed :
  forall nf,
    In nf (visited Examples.fs_mutex (as_list (AStr (lit "/d"))) false) ->
    listed (normalize_extensions (as_list (AList [lit "mhclo"; lit "obj"])))
      (fst nf) = true ->
    contains (normalize_extensions (as_list (AList [lit "mhclo"; lit "obj"])))
      (ext_of (snd nf)) = true.
Proof.
  intros nf I _. vm_compute in I.
  repeat (destruct I as [<-|I]; [reflexivity|]). destruct I.
Qed.

Lemma search_mutex_one_per_base_witness :
  exists d,
    search Examples.fs_mutex (AStr (lit "/d")) (AList [lit "mhclo"; lit "obj"])
      false true = (map rebuilt d, None)
    /\ NoDup (map fst d).
Proof.
  destruct (search_mutex_one_per_base Examples.fs_mutex (AStr (lit "/d"))
              (AList [lit "mhclo"; lit "obj"]) false fs_mutex_listed)
    as [d [S [N _]]].
  now exists d.
Defined.

(** X19: in such a search, for every matching file the dict holds, under
    the file's extension-stripped path, an extension that stands no later in
    the extensions list than the file's own, and that is the extension of a
    matching file with the same extension-stripped path. *)
Theorem search_mutex_precedence (fs : FileSystem) (paths extensions : pathsArg)
  (recursive : bool) :
  let E := normalize_extensions (as_list extensions) in
  let met := visited fs (as_list paths) recursive in
  (forall nf, In nf met -> listed E (fst nf) = true ->
              contains E (ext_of (snd nf)) = true) ->
  exists d,
    search fs paths extensions recursive true = (map rebuilt d, None)
    /\ forall nf, In nf met -> listed E (fst nf) = true ->
         exists w,
           In (base_of (snd nf), w) d
           /\ position E w <= position E (ext_of (snd nf))
           /\ exists nf', In nf' met /\ listed E (fst nf') = true
                          /\ base_of (snd nf') = base_of (snd nf)
                          /\ ext_of (snd nf') = w.
Proof.
  intros E met H.
  destruct (visit_all_mutex_spec E met [] [] H) as [d [V [N [_ [_ [T P]]]]]];
    [discriminate|constructor|].
  exists d. split; [now apply search_mutex_run|].
  intros nf I L. destruct (T nf I L) as [w [G Pw]].
  exists w. split; [now apply dict_get_In|]. split; [assumption|].
  destruct (P _ w G) as [G0|[nf' [I' [L' [B' E']]]]]; [discriminate|].
  now exists nf'.
Qed.

Lemma search_mutex_precedence_witness :
  exists d,
    search Examples.fs_mutex (AStr (lit "/d")) (AList [lit "mhclo"; lit "obj"])
      false true = (map rebuilt d, None)
    /\ exists w,
         In (base_of (lit "/d/a.obj"), w) d
         /\ position (normalize_extensions [lit "mhclo"; lit "obj"]) w
            <= position (normalize_extensions [lit "mhclo"; lit "obj"])
                        (ext_of (lit "/d/a.obj")).
Proof.
  destruct (search_mutex_precedence Examples.fs_mutex (AStr (lit "/d"))
              (AList [lit "mhclo"; lit "obj"]) false fs_mutex_listed)
    as [d [S T]].
  exists d. split; [exact S|].
  destruct (T (lit "/d/a.obj", lit "/d/a.obj")) as [w [I [P _]]].
  - vm_compute. now left.
  - reflexivity.
  - now exists w.
Defined.

(** *** [splitext] splits at a dot *)

Lemma rfind_from_spec (c : ascii) (p : str) :
  forall i f,
    rfind_from c p i f = f
    \/ ((i <= rfind_from c p i f)%Z
        /\ exists e, skipn (Z.to_nat (rfind_from c p i f - i)) p = c :: e).
Proof.
  induction p as [|d p IH]; intros i f; [now left|].
  cbn [rfind_from].
  destruct (IH (i + 1)%Z (if Ascii.eqb d c then i else f)) as [E|[L [e Hs]]].
  - rewrite E. destruct (Ascii.eqb d c) eqn:D; [|now left].
    apply Ascii.eqb_eq in D. subst d. right. split; [lia|].
    rewrite Z.sub_diag. now exists p.
  - right. split; [lia|]. exists e.
    replace (Z.to_nat (rfind_from c p (i + 1) (if Ascii.eqb d c then i else f) - i))
      with (S (Z.to_nat (rfind_from c p (i + 1)
                           (if Ascii.eqb d c then i else f) - (i + 1))))
      by lia.
    exact Hs.
Qed.

Lemma splitext_parts (p : str) :
  fst (splitext p) ++ snd (splitext p) = p
  /\ (snd (splitext p) = [] \/ exists e, snd (splitext p) = extsep :: e).
Proof.
  unfold splitext. cbv zeta.
  destruct (rfind sep p <? rfind extsep p)%Z eqn:Lt;
    [|split; [apply app_nil_r|now left]].
  destruct (existsb _ _); [|split; [apply app_nil_r|now left]].
  cbn [fst snd]. split; [apply firstn_skipn|]. right.
  apply Z.ltb_lt in Lt. unfold rfind in *.
  destruct (rfind_from_spec sep p 0 (-1)) as [Es|[Ls _]];
    destruct (rfind_from_spec extsep p 0 (-1)) as [Ed|[Ld [e S]]];
    try lia; rewrite Z.sub_0_r in S; now exists e.
Qed.

Lemma rebuilt_path (fp : str) :
  ext_of fp <> [] -> rebuilt (base_of fp, ext_of fp) = fp.
Proof.
  unfold ext_of, base_of, rebuilt. cbn [fst snd]. intros N.
  destruct (splitext_parts fp) as [A [Z|[e Z]]]; rewrite Z in *.
  - now destruct N.
  - cbn [drop skipn]. exact A.
Qed.

(** X20: in such a search, when the empty extension is not listed, every
    path yielded is the path of a matching file met by the traversal. *)
Theorem search_mutex_yields_met_files (fs : FileSystem)
  (paths extensions : pathsArg) (recursive : bool) :
  let E := normalize_extensions (as_list extensions) in
  let met := visited fs (as_list paths) recursive in
  (forall nf, In nf met -> listed E (fst nf) = true ->
              contains E (ext_of (snd nf)) = true) ->
  contains E [] = false ->
  snd (search fs paths extensions recursive true) = None
  /\ forall y, In y (fst (search fs paths extensions recursive true)) ->
       exists nf, In nf met /\ listed E (fst nf) = true /\ snd nf = y.
Proof.
  intros E met H Z.
  destruct (visit_all_mutex_spec E met [] [] H) as [d [V [N [L [_ [_ P]]]]]];
    [discriminate|constructor|].
  rewrite (search_mutex_run fs paths extensions recursive d V).
  split; [reflexivity|]. cbn [fst]. intros y I.
  apply in_map_iff in I. destruct I as [[k w] [<- I]].
  apply (dict_In_get d k w N) in I.
  destruct (P k w I) as [G|[nf [I' [L' [B' E']]]]]; [discriminate|].
  exists nf. repeat split; auto. subst k w. symmetry. apply rebuilt_path.
  intros Y. specialize (L _ _ I). rewrite Y in L. congruence.
Qed.

Lemma search_mutex_yields_met_files_witness :
  snd (search Examples.fs_mutex (AStr (lit "/d")) (AList [lit "mhclo"; lit "obj"])
         false true) = None.
Proof.
  apply (search_mutex_yields_met_files Examples.fs_mutex (AStr (lit "/d"))
           (AList [lit "mhclo"; lit "obj"]) false fs_mutex_listed).
  reflexivity.
Defined.

(** ** [getJailedPath] and [localPath] below a directory *)

(** X21: where [realpath] returns normalized paths with one leading slash
    and resolves its own result to itself, for a file resolving strictly below
    a directory [b] that is its own resolution, neither with a backslash,
    and inside some jail root, [getJailedPath] relative to [b] returns a
    relative path which [os.path.join] puts back onto [b] to give the
    resolved file. *)
Theorem getJailedPath_locates (fs : FileSystem) (f b : str)
  (jailLimits : list str) :
  WellFormed fs ->
  realpath fs (realpath fs f) = realpath fs f ->
  realpath fs b = b ->
  ~ In backslash b ->
  ~ In backslash (realpath fs f) ->
  isSubPath fs f b = true ->
  realpath fs f <> b ->
  (exists j, In j jailLimits /\ isSubPath fs f j = true) ->
  exists r,
    getJailedPath fs f (Paths (AStr b)) jailLimits = Ok (Some r)
    /\ isabs r = false
    /\ join2 b r = realpath fs f.
Proof.
  intros W Hi Hb Nb Nf Hsub Hne [j [Ij Hj]].
  assert (Same : forall x, isSubPath fs (realpath fs f) x = isSubPath fs f x).
  { intros x. unfold isSubPath, canonicalPath. now rewrite Hi. }
  destruct (relativize_under_base fs (realpath fs f) b W Hb Nb)
    as [r [Hr [Fr [Jr Ar]]]]; rewrite ?Hi, ?Same; try assumption.
  rewrite Hi in Hr, Jr. exists r. repeat split; try assumption.
  unfold getJailedPath. cbn [is_str bind getRelativePath_arg].
  assert (Wj : _withinJail fs jailLimits (realpath fs f) = true).
  { apply withinJail_true. exists j. now rewrite Same. }
  rewrite Wj. unfold getRelativePath, find_relto. cbn [as_list fold_left].
  pose proof (realpath_abspath fs W b) as Ab. rewrite Hb in Ab.
  rewrite Same, Hsub, Hb, Ab, Hi, (realpath_abspath fs W f), Hr.
  cbn [bind formatPath truthy_opt]. now rewrite Fr, <- Fr, formatPathStr_truthy.
Qed.

Lemma getJailedPath_locates_witness :
  exists r,
    getJailedPath (PlainFS.make []) (lit "/app/data/skins/skin1.mhmat")
      (Paths (AStr (lit "/app/data"))) [lit "/app/data"] = Ok (Some r)
    /\ isabs r = false
    /\ join2 (lit "/app/data") r = lit "/app/data/skins/skin1.mhmat".
Proof.
  apply (getJailedPath_locates (PlainFS.make []) (lit "/app/data/skins/skin1.mhmat")
           (lit "/app/data") [lit "/app/data"] (plain_well_formed _));
    try reflexivity.
  - vm_compute. intros H. repeat (destruct H as [H|H]; [discriminate|]).
    exact H.
  - vm_compute. intros H. repeat (destruct H as [H|H]; [discriminate|]).
    exact H.
  - vm_compute. discriminate.
  - exists (lit "/app/data"). split; [now left|reflexivity].
Defined.

(** X22: where [realpath] returns normalized paths with one leading slash,
    [localPath] never raises; it is [.]
    for a path that resolves to the program directory, and for a path
    resolving strictly below that directory, neither with a backslash, it is
    a relative path which [os.path.join] puts back onto the directory to give
    the resolved path. *)
Theorem localPath_below_program_dir (fs : FileSystem) (path : str) :
  WellFormed fs ->
  let root := realpath fs (getSysPath []) in
  (exists r, localPath fs path = Ok r)
  /\ (realpath fs path = root -> localPath fs path = Ok (lit "."))
  /\ (realpath fs root = root ->
      ~ In backslash root ->
      ~ In backslash (realpath fs path) ->
      isSubPath fs path root = true ->
      realpath fs path <> root ->
      exists r,
        localPath fs path = Ok r
        /\ isabs r = false
        /\ join2 root r = realpath fs path).
Proof.
  intros W root.
  assert (T : truthy (realpath fs path) = true).
  { destruct (realpath_shape fs W path) as [c [_ ->]]. reflexivity. }
  split; [|split].
  - unfold localPath. fold root.
    destruct (relpath_returns (cwd fs) (realpath fs path) root T) as [r ->].
    cbn [bind]. eauto.
  - intros E. unfold localPath. fold root.
    rewrite relpath_same; [reflexivity|assumption|now rewrite E].
  - intros Hr Nr Np Hsub Hne.
    destruct (relativize_under_base fs path root W Hr Nr Np Hsub Hne)
      as [r [Er [Fr [Jr Ar]]]].
    exists r. repeat split; try assumption.
    unfold localPath. fold root. rewrite Er. cbn [bind]. now rewrite Fr.
Qed.

Lemma resolve_in_shape (cwd p : str) :
  isabs cwd = true ->
  exists comps,
    Forall name_ok comps /\ Examples.resolve_in cwd p = sep :: join sep comps.
Proof.
  intros C. unfold Examples.resolve_in. cbv zeta.
  assert (A : exists q, isabs q = true /\ abspath cwd p = normpath q).
  { unfold abspath. destruct (isabs p) eqn:E; [now exists p|].
    exists (join2 cwd p). split; [|reflexivity].
    unfold join2. unfold isabs in E. rewrite E.
    destruct cwd as [|h cwd]; [discriminate|].
    destruct (_ || _); exact C. }
  destruct A as [q [Aq ->]].
  pose proof (normpath_NF q) as H. rewrite (normpath_repr q).
  pose proof (initial_slashes_absolute q Aq) as L1.
  pose proof (initial_slashes_le q) as L2.
  set (comps := fold_left _ _ _) in *. exists comps.
  assert (F : Forall name_ok comps).
  { apply (NF_rooted_names _ _ H). lia. }
  split; [assumption|].
  destruct (initial_slashes q) as [|[|[|n]]]; [lia| | |lia].
  - rewrite render_rooted, rooted_single_slash; [reflexivity|].
    now apply names_clean.
  - reflexivity.
Qed.

Lemma fs_app_well_formed : WellFormed Examples.fs_app.
Proof.
  constructor; intros p; cbn [realpath Examples.fs_app];
    destruct (resolve_in_shape (lit "/app") p eq_refl) as [comps [F ->]].
  - now apply rooted_normal.
  - apply rooted_initial_slashes. now apply names_clean.
Qed.

Lemma localPath_below_program_dir_witness :
  localPath Examples.fs_app (lit "data/../") = Ok (lit ".")
  /\ exists r,
       localPath Examples.fs_app (lit "data/skins/x.png") = Ok r
       /\ isabs r = false
       /\ join2 (realpath Examples.fs_app (getSysPath [])) r
          = realpath Examples.fs_app (lit "data/skins/x.png").
Proof.
  split.
  - apply (proj1 (proj2 (localPath_below_program_dir Examples.fs_app
                           (lit "data/../") fs_app_well_formed))).
    reflexivity.
  - apply (proj2 (proj2 (localPath_below_program_dir Examples.fs_app
                           (lit "data/skins/x.png") fs_app_well_formed)));
      try reflexivity;
      vm_compute; try discriminate;
      intros H; repeat (destruct H as [H|H]; [discriminate|]); exact H.
Defined.
